(** * pkg/task: the task interface, the shared context and the two composites

    A shallow embedding of [pkg/task/task.go]: the execution [Context] with
    its guarded maps, the [Task] interface, the sequential composite
    [Serial] and the concurrent composite [Parallel], followed by the
    properties of their [Execute] and [Rollback] methods. *)

From stdpp Require Import base option list gmap strings.
From Stdlib Require Import Strings.Byte.

Open Scope string_scope.
Open Scope list_scope.
Set Warnings "-register-all".

(** ** Errors *)

(** A non-nil Go [error] value.  The two sentinels of the package are
    kept apart from the errors produced by leaf tasks. *)
Inductive Err : Type :=
| ErrUnsupportedRollback
| ErrNoExecutor
| ErrOf (msg : string).

(** The Go type [error]: [None] is [nil]. *)
Definition error : Type := option Err.


#[global] Instance Err_eq_dec : EqDecision Err.
Proof. solve_decision. Defined.

(** ** The execution context *)

(** A value of the interface type [executor.TiOpsExecutor]; the interface
    is declared in another package, only its identity matters here.
    [None] is the nil interface value, the zero value of the type. *)
Definition TiOpsExecutor : Type := option nat.

(** A [*repository.VersionManifest]; [None] is the nil pointer. *)
Definition VersionManifest : Type := option nat.

(** A Go [[]byte]. *)
Definition bytes : Type := list byte.

(** The struct [Context].  The embedded [sync.RWMutex]es make every
    method below one atomic access of the maps, which is how the methods
    are modelled; the event bus [ev] has no state of its own that the
    package reads (see [PublishTaskBegin]). *)
Record Context : Type := mkContext {
  executors : gmap string TiOpsExecutor;
  stdouts : gmap string bytes;
  stderrs : gmap string bytes;
  PrivateKeyPath : string;
  PublicKeyPath : string;
  manifests : gmap string VersionManifest
}.

Definition NewContext : Context :=
  {| executors := ∅; stdouts := ∅; stderrs := ∅;
     PrivateKeyPath := ""; PublicKeyPath := "";
     manifests := ∅ |}.

(** The outcome of a call that may panic. *)
Inductive outcome (A : Type) : Type :=
| Returned (a : A)
| Panicked (msg : string).
Arguments Returned {A} a.
Arguments Panicked {A} msg.

(** Reading a Go map at an absent key gives the zero value and [false]. *)
Definition map_index {V : Type} (zero : V) (m : gmap string V) (k : string)
  : V * bool :=
  match m !! k with
  | Some v => (v, true)
  | None => (zero, false)
  end.

(** [func (ctx *Context) Get(host string) (e executor.TiOpsExecutor)] *)
Definition Context_Get (ctx : Context) (host : string) : outcome TiOpsExecutor :=
  let '(e, ok) := map_index None (executors ctx) host in
  if negb ok then Panicked ("no init executor for " +:+ host)
  else Returned e.

(** [func (ctx *Context) GetExecutor(host string) (e executor.TiOpsExecutor, ok bool)] *)
Definition Context_GetExecutor (ctx : Context) (host : string)
  : TiOpsExecutor * bool :=
  map_index None (executors ctx) host.

(** [func (ctx *Context) SetExecutor(host string, e executor.TiOpsExecutor)] *)
Definition Context_SetExecutor (ctx : Context) (host : string) (e : TiOpsExecutor)
  : Context :=
  {| executors := <[host := e]> (executors ctx);
     stdouts := stdouts ctx; stderrs := stderrs ctx;
     PrivateKeyPath := PrivateKeyPath ctx; PublicKeyPath := PublicKeyPath ctx;
     manifests := manifests ctx |}.

(** [func (ctx *Context) GetOutputs(host string) ([]byte, []byte, bool)]:
    the variable named [stdout] is read from the map [stderrs] and the
    variable named [stderr] from the map [stdouts]. *)
Definition Context_GetOutputs (ctx : Context) (host : string)
  : bytes * bytes * bool :=
  let '(stdout, ok1) := map_index [] (stderrs ctx) host in
  let '(stderr, ok2) := map_index [] (stdouts ctx) host in
  (stdout, stderr, ok1 && ok2).

(** [func (ctx *Context) SetOutputs(host string, stdout []byte, stderr []byte)]:
    [stdout] is stored in the map [stderrs], [stderr] in the map [stdouts]. *)
Definition Context_SetOutputs (ctx : Context) (host : string)
    (stdout stderr : bytes) : Context :=
  {| executors := executors ctx;
     stdouts := <[host := stderr]> (stdouts ctx);
     stderrs := <[host := stdout]> (stderrs ctx);
     PrivateKeyPath := PrivateKeyPath ctx; PublicKeyPath := PublicKeyPath ctx;
     manifests := manifests ctx |}.

(** [func (ctx *Context) GetManifest(comp string) (m *repository.VersionManifest, ok bool)] *)
Definition Context_GetManifest (ctx : Context) (comp : string)
  : VersionManifest * bool :=
  map_index None (manifests ctx) comp.

(** [func (ctx *Context) SetManifest(comp string, m *repository.VersionManifest)] *)
Definition Context_SetManifest (ctx : Context) (comp : string) (m : VersionManifest)
  : Context :=
  {| executors := executors ctx;
     stdouts := stdouts ctx; stderrs := stderrs ctx;
     PrivateKeyPath := PrivateKeyPath ctx; PublicKeyPath := PublicKeyPath ctx;
     manifests := <[comp := m]> (manifests ctx) |}.

(** ** Observable actions *)

Inductive Method : Type := MExecute | MRollback.

#[global] Instance Method_eq_dec : EqDecision Method.
Proof. solve_decision. Defined.

(** What a method of this package does besides updating the context, in
    the order in which it does it.  [T] is the type of tasks.  A [Call]
    records one call of a method of the [Task] interface together with
    everything the callee did and the error it returned. *)
Inductive Action (T : Type) : Type :=
| Infof (line : string)
| TaskBegin (t : T)
| TaskFinish (t : T) (err : error)
| Call (m : Method) (t : T) (inner : list (Action T)) (err : error).
Arguments Infof {T} line.
Arguments TaskBegin {T} t.
Arguments TaskFinish {T} t err.
Arguments Call {T} m t inner err.

(** A computation over the shared context: the value it returns, the
    context it leaves and the actions it performed. *)
Definition Run (T A : Type) : Type := Context → A * Context * list (Action T).

(** ** The Task interface *)

(** The dynamic type of the value behind a [Task] interface: the four
    types [isDisplayTask] asserts against, or any other implementation. *)
Inductive TaskType : Type :=
| SerialT
| ParallelT
| StepDisplayT
| ParallelStepDisplayT
| OtherT (name : string).

(** A value of the interface [Task]: its dynamic type and its three
    methods, [String] (here [Describe]), [Execute] and [Rollback]. *)
Inductive Task : Type := mkTask {
  typ : TaskType;
  Describe : string;
  Execute : Run Task error;
  Rollback : Run Task error
}.

Definition method (m : Method) (t : Task) : Run Task error :=
  match m with
  | MExecute => Execute t
  | MRollback => Rollback t
  end.

(** [Run Task] is a monad: state passing for the context, with the
    actions of the two computations concatenated in order. *)
#[global] Instance Run_ret : MRet (Run Task) :=
  λ A a ctx, (a, ctx, []).

#[global] Instance Run_bind : MBind (Run Task) :=
  λ A B k c ctx,
    let '(a, ctx1, tr1) := c ctx in
    let '(b, ctx2, tr2) := k a ctx1 in
    (b, ctx2, tr1 ++ tr2).

Definition emit (a : Action Task) : Run Task unit :=
  λ ctx, (tt, ctx, [a]).

Definition skip : Run Task unit := mret tt.

(** Modelled from the spec: [log.Infof] of the package [pkg/log], which
    prints the formatted line. *)
Definition log_Infof (line : string) : Run Task unit := emit (Infof line).

(** Modelled from the spec: the method [PublishTaskBegin] of [EventBus],
    which notifies the observers, in the calling thread, that [t] begins. *)
Definition PublishTaskBegin (t : Task) : Run Task unit := emit (TaskBegin t).

(** Modelled from the spec: the method [PublishTaskFinish] of [EventBus],
    which notifies the observers that [t] finished with [err]. *)
Definition PublishTaskFinish (t : Task) (err : error) : Run Task unit :=
  emit (TaskFinish t err).

(** A call [t.Execute(ctx)] or [t.Rollback(ctx)] through the interface. *)
Definition call (m : Method) (t : Task) : Run Task error :=
  λ ctx,
    let '(err, ctx', inner) := method m t ctx in
    (err, ctx', [Call m t inner err]).

(** [func isDisplayTask(t Task) bool] *)
Definition isDisplayTask (t : Task) : bool :=
  match typ t with
  | SerialT => true
  | ParallelT => true
  | StepDisplayT => true
  | ParallelStepDisplayT => true
  | OtherT _ => false
  end.

(** [strings.Join(ss, "\n")] *)
Definition newline : string := String (Ascii.ascii_of_nat 10) EmptyString.
Definition Join (ss : list string) : string := String.concat newline ss.

(** ** Serial *)

Record Serial : Type := mkSerial {
  Serial_hideDetailDisplay : bool;
  Serial_inner : list Task
}.

(** The body of the [range] loop of [Serial.Execute], from the child at
    the head of [inner] on. *)
Fixpoint Serial_Execute_loop (hideDetailDisplay : bool) (inner : list Task)
  : Run Task error :=
  match inner with
  | [] => mret None
  | t :: rest =>
      (if negb (isDisplayTask t) then
         if negb hideDetailDisplay then
           log_Infof ("+ [ Serial ] - " +:+ Describe t)
         else skip
       else skip);;
      PublishTaskBegin t;;
      err ← call MExecute t;
      PublishTaskFinish t err;;
      match err with
      | Some e => mret (Some e)
      | None => Serial_Execute_loop hideDetailDisplay rest
      end
  end.

(** [func (s *Serial) Execute(ctx *Context) error] *)
Definition Serial_Execute (s : Serial) : Run Task error :=
  Serial_Execute_loop (Serial_hideDetailDisplay s) (Serial_inner s).

(** The loop [for i := len(s.inner) - 1; i >= 0; i--] of
    [Serial.Rollback]; [n] is [i + 1].  The index is within the slice at
    every iteration, the other branch of the lookup is never taken. *)
Fixpoint Serial_Rollback_loop (inner : list Task) (n : nat) : Run Task error :=
  match n with
  | 0 => mret None
  | S i =>
      match inner !! i with
      | Some t =>
          err ← call MRollback t;
          match err with
          | Some e => mret (Some e)
          | None => Serial_Rollback_loop inner i
          end
      | None => mret None
      end
  end.

(** [func (s *Serial) Rollback(ctx *Context) error] *)
Definition Serial_Rollback (s : Serial) : Run Task error :=
  Serial_Rollback_loop (Serial_inner s) (length (Serial_inner s)).

(** [func (s *Serial) String() string] *)
Definition Serial_String (s : Serial) : string :=
  Join (map Describe (Serial_inner s)).

(** A [*Serial] as a value of the interface [Task]. *)
Definition Serial_Task (s : Serial) : Task :=
  {| typ := SerialT; Describe := Serial_String s;
     Execute := Serial_Execute s; Rollback := Serial_Rollback s |}.

(** A leaf task of some other type [name]: its methods work on the
    context and return an error, and use neither the log nor the bus. *)
Definition Leaf (name description : string)
    (execute rollback : Context → error * Context) : Task :=
  {| typ := OtherT name; Describe := description;
     Execute := λ ctx, let '(err, ctx') := execute ctx in (err, ctx', []);
     Rollback := λ ctx, let '(err, ctx') := rollback ctx in (err, ctx', []) |}.

(** ** Parallel *)

Record Parallel : Type := mkParallel {
  Parallel_hideDetailDisplay : bool;
  Parallel_inner : list Task
}.

(** [func (pt *Parallel) String() string] *)
Definition Parallel_String (pt : Parallel) : string :=
  Join (map Describe (Parallel_inner pt)).

(** What the goroutines of one call of [Parallel.Execute] or
    [Parallel.Rollback] share: the context behind [ctx], the actions
    performed so far in the order in which they happened, the variable
    [firstError] guarded by [mu], and the counter of the wait group [wg]. *)
Record Shared : Type := mkShared {
  sh_ctx : Context;
  sh_trace : list (Action Task);
  firstError : error;
  wg : nat
}.

Definition sh_emit (a : Action Task) (sh : Shared) : Shared :=
  {| sh_ctx := sh_ctx sh; sh_trace := sh_trace sh ++ [a];
     firstError := firstError sh; wg := wg sh |}.

(** One call through the interface, made by a goroutine: the callee is
    taken as one step of the interleaving. *)
Definition sh_call (m : Method) (t : Task) (sh : Shared) : error * Shared :=
  let '(err, ctx', inner) := method m t (sh_ctx sh) in
  (err, {| sh_ctx := ctx'; sh_trace := sh_trace sh ++ [Call m t inner err];
           firstError := firstError sh; wg := wg sh |}).

(** [if err != nil { mu.Lock(); if firstError == nil { firstError = err }; mu.Unlock() }];
    the mutex makes the test and the assignment one step. *)
Definition sh_record (err : error) (sh : Shared) : Shared :=
  match err with
  | Some _ =>
      match firstError sh with
      | None => {| sh_ctx := sh_ctx sh; sh_trace := sh_trace sh;
                   firstError := err; wg := wg sh |}
      | Some _ => sh
      end
  | None => sh
  end.

(** [wg.Add(1)] and [wg.Done()].  The counter is positive at every
    [Done], see [inv_wg] below. *)
Definition wg_Add (sh : Shared) : Shared :=
  {| sh_ctx := sh_ctx sh; sh_trace := sh_trace sh;
     firstError := firstError sh; wg := S (wg sh) |}.
Definition wg_Done (sh : Shared) : Shared :=
  {| sh_ctx := sh_ctx sh; sh_trace := sh_trace sh;
     firstError := firstError sh; wg := pred (wg sh) |}.

(** The program points of the function literal run by each goroutine.
    From the call on, the local variable [err] is part of the point. *)
Inductive Pc : Type :=
| PcAnnounce                (* at the test of isDisplayTask *)
| PcBegin                   (* before PublishTaskBegin *)
| PcCall                    (* before t.Execute(ctx) or t.Rollback(ctx) *)
| PcFinish (err : error)    (* before PublishTaskFinish *)
| PcRecord (err : error)    (* before the test of err *)
| PcDefer (err : error)     (* before the deferred wg.Done() *)
| PcExit (err : error).     (* the goroutine has ended *)

(** One step of the goroutine started by [Parallel.Execute] for [t]. *)
Definition Parallel_Execute_goroutine (hideDetailDisplay : bool) (t : Task)
    (pc : Pc) (sh : Shared) : option (Pc * Shared) :=
  match pc with
  | PcAnnounce =>
      Some (PcBegin,
            if negb (isDisplayTask t) then
              if negb hideDetailDisplay then
                sh_emit (Infof ("+ [Parallel] - " +:+ Describe t)) sh
              else sh
            else sh)
  | PcBegin => Some (PcCall, sh_emit (TaskBegin t) sh)
  | PcCall => let '(err, sh') := sh_call MExecute t sh in Some (PcFinish err, sh')
  | PcFinish err => Some (PcRecord err, sh_emit (TaskFinish t err) sh)
  | PcRecord err => Some (PcDefer err, sh_record err sh)
  | PcDefer err => Some (PcExit err, wg_Done sh)
  | PcExit _ => None
  end.

(** One step of the goroutine started by [Parallel.Rollback] for [t];
    its function literal has no announcement and publishes no event. *)
Definition Parallel_Rollback_goroutine (t : Task)
    (pc : Pc) (sh : Shared) : option (Pc * Shared) :=
  match pc with
  | PcCall => let '(err, sh') := sh_call MRollback t sh in Some (PcRecord err, sh')
  | PcRecord err => Some (PcDefer err, sh_record err sh)
  | PcDefer err => Some (PcExit err, wg_Done sh)
  | PcAnnounce | PcBegin | PcFinish _ | PcExit _ => None
  end.

Definition goroutine (m : Method) (hideDetailDisplay : bool)
  : Task → Pc → Shared → option (Pc * Shared) :=
  match m with
  | MExecute => Parallel_Execute_goroutine hideDetailDisplay
  | MRollback => Parallel_Rollback_goroutine
  end.

(** The first program point of the function literal. *)
Definition entry (m : Method) : Pc :=
  match m with
  | MExecute => PcAnnounce
  | MRollback => PcCall
  end.

(** The state of one call of [Parallel.Execute] or [Parallel.Rollback]:
    the shared variables, the index of the [range] loop of the calling
    goroutine, the goroutines started so far (the one for [inner[i]] at
    position [i]), and the value returned once the call has returned. *)
Record PState : Type := mkPState {
  shared : Shared;
  next : nat;
  goroutines : list (Task * Pc);
  returned : option error
}.

(** Who takes the next step: the calling goroutine or goroutine [i]. *)
Inductive Choice : Type :=
| RunMain
| RunGo (i : nat).

Definition Parallel_init (ctx : Context) : PState :=
  {| shared := {| sh_ctx := ctx; sh_trace := []; firstError := None; wg := 0 |};
     next := 0; goroutines := []; returned := None |}.

(** One step of the interleaving; [None] when the chosen goroutine cannot
    step.  The calling goroutine starts the goroutines in list order
    ([wg.Add(1); go func(t Task) {...}(t)]), then blocks in [wg.Wait()]
    until the counter is zero and returns [firstError]. *)
Definition Parallel_step (m : Method) (pt : Parallel) (c : Choice) (st : PState)
  : option PState :=
  match c with
  | RunMain =>
      match returned st with
      | Some _ => None
      | None =>
          match Parallel_inner pt !! next st with
          | Some t =>
              Some {| shared := wg_Add (shared st); next := S (next st);
                      goroutines := goroutines st ++ [(t, entry m)];
                      returned := None |}
          | None =>
              match wg (shared st) with
              | 0 => Some {| shared := shared st; next := next st;
                             goroutines := goroutines st;
                             returned := Some (firstError (shared st)) |}
              | S _ => None
              end
          end
      end
  | RunGo i =>
      match goroutines st !! i with
      | Some (t, pc) =>
          match goroutine m (Parallel_hideDetailDisplay pt) t pc (shared st) with
          | Some (pc', sh') =>
              Some {| shared := sh'; next := next st;
                      goroutines := <[i := (t, pc')]> (goroutines st);
                      returned := returned st |}
          | None => None
          end
      | None => None
      end
  end.

(** The steps of a schedule, in order. *)
Fixpoint Parallel_run (m : Method) (pt : Parallel) (sched : list Choice)
    (st : PState) : option PState :=
  match sched with
  | [] => Some st
  | c :: sched' =>
      match Parallel_step m pt c st with
      | Some st' => Parallel_run m pt sched' st'
      | None => None
      end
  end.

(** The result of the call under the schedule [sched]: defined when every
    step of [sched] can be taken and the call has returned at its end. *)
Definition Parallel_call (m : Method) (pt : Parallel) (sched : list Choice)
    (ctx : Context) : option (error * Context * list (Action Task)) :=
  match Parallel_run m pt sched (Parallel_init ctx) with
  | Some st =>
      match returned st with
      | Some err => Some (err, sh_ctx (shared st), sh_trace (shared st))
      | None => None
      end
  | None => None
  end.

(** [func (pt *Parallel) Execute(ctx *Context) error] *)
Definition Parallel_Execute : Parallel → list Choice → Context →
    option (error * Context * list (Action Task)) :=
  Parallel_call MExecute.

(** [func (pt *Parallel) Rollback(ctx *Context) error] *)
Definition Parallel_Rollback : Parallel → list Choice → Context →
    option (error * Context * list (Action Task)) :=
  Parallel_call MRollback.

(** ** Reading a sequence of actions *)

(** The calls of the method [m] made at the top level of a sequence of
    actions, each with the error it returned. *)
Definition call_of (m : Method) (a : Action Task) : option (Task * error) :=
  match a with
  | Call m' t _ err => if decide (m = m') then Some (t, err) else None
  | _ => None
  end.
Definition calls (m : Method) (tr : list (Action Task)) : list (Task * error) :=
  omap (call_of m) tr.

(** The events published to the bus. *)
Inductive Event : Type :=
| Begin (t : Task)
| Finish (t : Task) (err : error).

Definition event_of (a : Action Task) : option Event :=
  match a with
  | TaskBegin t => Some (Begin t)
  | TaskFinish t err => Some (Finish t err)
  | _ => None
  end.
Definition events (tr : list (Action Task)) : list Event := omap event_of tr.

(** The lines printed with [log.Infof]. *)
Definition line_of (a : Action Task) : option string :=
  match a with
  | Infof line => Some line
  | _ => None
  end.
Definition announcements (tr : list (Action Task)) : list string := omap line_of tr.

(** The announcement one dispatch of [t] prints: none for a display task,
    none when the flag is set. *)
Definition announcement (prefix : string) (hideDetailDisplay : bool) (t : Task)
  : list (Action Task) :=
  if negb (isDisplayTask t) then
    if negb hideDetailDisplay then [Infof (prefix +:+ Describe t)] else []
  else [].

(** The two events published around one call of [Execute]. *)
Definition bracket (r : Task * error) : list Event :=
  [Begin r.1; Finish r.1 r.2].

Definition succeeded (t : Task) : Task * error := (t, None).


(** All the events published during a sequence of actions, those
    published inside the calls included, in order. *)
Fixpoint published (a : Action Task) : list Event :=
  match a with
  | Infof _ => []
  | TaskBegin t => [Begin t]
  | TaskFinish t err => [Finish t err]
  | Call _ _ inner _ => flat_map published inner
  end.
Definition all_events (tr : list (Action Task)) : list Event :=
  flat_map published tr.

(** A task whose [Execute] publishes no event, as a leaf task. *)
Definition quiet (t : Task) : Prop :=
  ∀ ctx, all_events (Execute t ctx).2 = [].

(** The tasks and the errors of the events, apart. *)
Definition begins (es : list Event) : list Task :=
  omap (λ e, match e with Begin t => Some t | Finish _ _ => None end) es.
Definition finishes (es : list Event) : list (Task * error) :=
  omap (λ e, match e with Finish t err => Some (t, err) | Begin _ => None end) es.

(** ** The state of the goroutines *)

(** The call a goroutine has made, with the error it got back. *)
Definition result_of (g : Task * Pc) : option (Task * error) :=
  match g.2 with
  | PcFinish err | PcRecord err | PcDefer err | PcExit err => Some (g.1, err)
  | PcAnnounce | PcBegin | PcCall => None
  end.

(** The error of a goroutine that is past the section guarded by [mu]. *)
Definition recorded_of (g : Task * Pc) : option error :=
  match g.2 with
  | PcDefer err | PcExit err => Some err
  | _ => None
  end.

(** 1 for a goroutine that has not called [wg.Done()] yet, 0 after. *)
Definition live (g : Task * Pc) : nat :=
  match g.2 with
  | PcExit _ => 0
  | _ => 1
  end.

(** The program points of the function literal of each method. *)
Definition valid_pc (m : Method) (pc : Pc) : Prop :=
  match m, pc with
  | MRollback, (PcAnnounce | PcBegin | PcFinish _) => False
  | _, _ => True
  end.

(** A bound on the steps a goroutine has left. *)
Definition remaining (g : Task * Pc) : nat :=
  match g.2 with
  | PcAnnounce => 6
  | PcBegin => 5
  | PcCall => 4
  | PcFinish _ => 3
  | PcRecord _ => 2
  | PcDefer _ => 1
  | PcExit _ => 0
  end.

(** A bound on the steps the whole call has left: those of the
    goroutines started, seven for each child not started yet (one to
    start it), and one to return. *)
Definition steps_left (pt : Parallel) (st : PState) : nat :=
  (match returned st with Some _ => 0 | None => 1 end)
  + 7 * (length (Parallel_inner pt) - next st)
  + sum_list_with remaining (goroutines st).

(** What holds of every state a schedule reaches. *)
Record Inv (m : Method) (pt : Parallel) (st : PState) : Prop := mkInv {
  inv_next : (next st ≤ length (Parallel_inner pt))%nat;
  inv_tasks : map fst (goroutines st) = take (next st) (Parallel_inner pt);
  inv_valid : Forall (λ g, valid_pc m g.2) (goroutines st);
  inv_wg : wg (shared st) = sum_list_with live (goroutines st);
  inv_calls : calls m (sh_trace (shared st)) ≡ₚ omap result_of (goroutines st);
  inv_nil : firstError (shared st) = None →
            Forall (λ g, ∀ err, recorded_of g = Some err → err = None)
                   (goroutines st);
  inv_some : ∀ e, firstError (shared st) = Some e →
             Exists (λ g, recorded_of g = Some (Some e)) (goroutines st);
  inv_returned : ∀ err, returned st = Some err →
                 err = firstError (shared st)
                 ∧ next st = length (Parallel_inner pt)
                 ∧ wg (shared st) = 0
}.

(** The goroutine started for each child has ended. *)
Definition all_exited (pt : Parallel) (st : PState) : Prop :=
  map fst (goroutines st) = Parallel_inner pt
  ∧ Forall (λ g, ∃ err, g.2 = PcExit err) (goroutines st).

(** A sequence of actions made of calls of the method [m] only. *)
Definition only_calls (m : Method) (tr : list (Action Task)) : Prop :=
  Forall (λ a, ∃ t sub err, a = Call m t sub err) tr.

(** ** Comparing two runs *)

(** Two tasks with the same description and the same methods; their
    dynamic types, which is all [isDisplayTask] looks at, may differ. *)
Definition same_methods (t t' : Task) : Prop :=
  Describe t = Describe t' ∧ Execute t = Execute t' ∧ Rollback t = Rollback t'.

(** The same event or the same call with the same outcome, on tasks
    related by [R]. *)
Inductive same_action (R : Task → Task → Prop)
  : Action Task → Action Task → Prop :=
| same_TaskBegin t t' :
    R t t' → same_action R (TaskBegin t) (TaskBegin t')
| same_TaskFinish t t' err :
    R t t' → same_action R (TaskFinish t err) (TaskFinish t' err)
| same_Call m t t' inner err :
    R t t' → same_action R (Call m t inner err) (Call m t' inner err).

(** A sequence of actions without the lines printed at its top level. *)
Definition without_announcements (tr : list (Action Task)) : list (Action Task) :=
  omap (λ a, match a with Infof _ => None | _ => Some a end) tr.

Definition same_shared (R : Task → Task → Prop) (sh sh' : Shared) : Prop :=
  sh_ctx sh = sh_ctx sh'
  ∧ firstError sh = firstError sh'
  ∧ wg sh = wg sh'
  ∧ Forall2 (same_action R) (without_announcements (sh_trace sh))
            (without_announcements (sh_trace sh')).

Definition same_state (R : Task → Task → Prop) (st st' : PState) : Prop :=
  same_shared R (shared st) (shared st')
  ∧ next st = next st'
  ∧ Forall2 (λ g g' : Task * Pc, R g.1 g'.1 ∧ g.2 = g'.2)
            (goroutines st) (goroutines st')
  ∧ returned st = returned st'.

(** The task [t] behind another dynamic type. *)
Definition retype (k : TaskType) (t : Task) : Task :=
  {| typ := k; Describe := Describe t;
     Execute := Execute t; Rollback := Rollback t |}.

(** ** Sample tasks *)

Definition ok_task (name : string) : Task :=
  Leaf "Shell" name (λ ctx, (None, ctx)) (λ ctx, (None, ctx)).

Definition failing_task (name : string) : Task :=
  Leaf "Shell" name (λ ctx, (Some (ErrOf name), ctx)) (λ ctx, (None, ctx)).

(** A task that registers an executor for [host]; its rollback is not
    supported. *)
Definition connect_task (host : string) : Task :=
  Leaf "RootSSH" host
       (λ ctx, (None, Context_SetExecutor ctx host (Some 1)))
       (λ ctx, (Some ErrUnsupportedRollback, ctx)).

(** Two children that both fail, and two schedules for them: each
    starts both goroutines, runs one to its end, then the other, and lets
    the caller return. *)
Definition two_failing : Parallel :=
  mkParallel false [failing_task "a"; failing_task "b"].

Definition first_then_second : list Choice :=
  [RunMain; RunMain] ++ replicate 6 (RunGo 0) ++ replicate 6 (RunGo 1)
  ++ [RunMain].

Definition second_then_first : list Choice :=
  [RunMain; RunMain] ++ replicate 6 (RunGo 1) ++ replicate 6 (RunGo 0)
  ++ [RunMain].

(** The schedule of [Parallel.Rollback] on two children, in list order. *)
Definition rollback_in_order : list Choice :=
  [RunMain; RunMain] ++ replicate 3 (RunGo 0) ++ replicate 3 (RunGo 1)
  ++ [RunMain].

(** The actions of one dispatch of a leaf task [t] whose [Execute]
    returns [err], when the announcement is printed. *)
Definition dispatched (prefix : string) (t : Task) (err : error)
  : list (Action Task) :=
  [Infof (prefix +:+ Describe t); TaskBegin t; Call MExecute t [] err;
   TaskFinish t err].

(** The actions of [Parallel.Execute] on [two_failing] under the two
    schedules. *)
Definition trace_first_then_second : list (Action Task) :=
  dispatched "+ [Parallel] - " (failing_task "a") (Some (ErrOf "a"))
  ++ dispatched "+ [Parallel] - " (failing_task "b") (Some (ErrOf "b")).

Definition trace_second_then_first : list (Action Task) :=
  dispatched "+ [Parallel] - " (failing_task "b") (Some (ErrOf "b"))
  ++ dispatched "+ [Parallel] - " (failing_task "a") (Some (ErrOf "a")).

(** The actions of [Parallel.Rollback] on [two_failing] in list order. *)
Definition trace_rollback_in_order : list (Action Task) :=
  [Call MRollback (failing_task "a") [] None;
   Call MRollback (failing_task "b") [] None].

(** ** Histories of writes to the context *)

(** One call of a setter of [Context]. *)
Inductive ContextOp : Type :=
| DoSetExecutor (host : string) (e : TiOpsExecutor)
| DoSetOutputs (host : string) (stdout stderr : bytes)
| DoSetManifest (comp : string) (m : VersionManifest).

Definition apply_op (ctx : Context) (op : ContextOp) : Context :=
  match op with
  | DoSetExecutor host e => Context_SetExecutor ctx host e
  | DoSetOutputs host stdout stderr => Context_SetOutputs ctx host stdout stderr
  | DoSetManifest comp m => Context_SetManifest ctx comp m
  end.

(** The context after the calls [ops], made in order on [ctx]. *)
Definition run_ops (ops : list ContextOp) (ctx : Context) : Context :=
  fold_left apply_op ops ctx.

(** What the last call of [ops] that sets the executor of [host], the
    outputs of [host] or the manifest of [comp] has set, if there is one. *)
Definition sets_executor (host : string) (op : ContextOp) : option TiOpsExecutor :=
  match op with
  | DoSetExecutor host' e => if decide (host' = host) then Some e else None
  | _ => None
  end.

Definition sets_outputs (host : string) (op : ContextOp) : option (bytes * bytes) :=
  match op with
  | DoSetOutputs host' stdout stderr =>
      if decide (host' = host) then Some (stdout, stderr) else None
  | _ => None
  end.

Definition sets_manifest (comp : string) (op : ContextOp) : option VersionManifest :=
  match op with
  | DoSetManifest comp' m => if decide (comp' = comp) then Some m else None
  | _ => None
  end.

Definition latest {A : Type} (sets : ContextOp → option A) (ops : list ContextOp)
  : option A :=
  last (omap sets ops).

(** ** More readings of a run *)

(** The line [Serial.Execute] or [Parallel.Execute] prints for [t]. *)
Definition announced (prefix : string) (hideDetailDisplay : bool) (t : Task)
  : list string :=
  announcements (announcement prefix hideDetailDisplay t).

(** Around each call of [Execute], the events of its dispatch. *)
Definition framed (a : Action Task) : list (Action Task) :=
  match a with
  | Call MExecute t _ err => [TaskBegin t; a; TaskFinish t err]
  | _ => []
  end.

(** Sequencing of two runs: the second one starts in the context the
    first one leaves, unless the first one returns an error. *)
Definition and_then (r : error * Context * list (Action Task))
    (k : Run Task error) : error * Context * list (Action Task) :=
  let '(err, ctx, tr) := r in
  match err with
  | Some e => (Some e, ctx, tr)
  | None => let '(err', ctx', tr') := k ctx in (err', ctx', tr ++ tr')
  end.

(** Whatever holds of the context and is kept by the method [m] of every
    child is kept by the composite. *)
Definition keeps (m : Method) (P : Context → Prop) (t : Task) : Prop :=
  ∀ ctx, P ctx → P (method m t ctx).1.2.

(** The events a goroutine of [Parallel.Execute] has published. *)
Definition events_of (g : Task * Pc) : list Event :=
  match g.2 with
  | PcAnnounce | PcBegin => []
  | PcCall | PcFinish _ => [Begin g.1]
  | PcRecord err | PcDefer err | PcExit err => [Begin g.1; Finish g.1 err]
  end.

(** The lines a goroutine of [Parallel.Execute] has printed. *)
Definition lines_of (hideDetailDisplay : bool) (g : Task * Pc) : list string :=
  match g.2 with
  | PcAnnounce => []
  | _ => announced "+ [Parallel] - " hideDetailDisplay g.1
  end.

(** One child that succeeds and one that fails, and the actions of
    [Parallel.Execute] on them in list order. *)
Definition one_failing : Parallel :=
  mkParallel false [ok_task "a"; failing_task "b"].

Definition trace_one_failing : list (Action Task) :=
  dispatched "+ [Parallel] - " (ok_task "a") None
  ++ dispatched "+ [Parallel] - " (failing_task "b") (Some (ErrOf "b")).

(** [Parallel.Execute] on [two_failing]: the state once the goroutine of
    the second child has left the section guarded by [mu] while the first
    one has not started, the rest of [second_then_first] from there, and
    the state at the return. *)
Definition second_has_recorded : list Choice :=
  [RunMain; RunMain] ++ replicate 5 (RunGo 1).

Definition after_second_has_recorded : list Choice :=
  [RunGo 1] ++ replicate 6 (RunGo 0) ++ [RunMain].

Definition state_second_has_recorded : PState :=
  {| shared :=
       {| sh_ctx := NewContext;
          sh_trace := dispatched "+ [Parallel] - " (failing_task "b")
                                 (Some (ErrOf "b"));
          firstError := Some (ErrOf "b");
          wg := 2 |};
     next := 2;
     goroutines := [(failing_task "a", PcAnnounce);
                    (failing_task "b", PcDefer (Some (ErrOf "b")))];
     returned := None |}.

Definition state_at_return : PState :=
  {| shared :=
       {| sh_ctx := NewContext;
          sh_trace := trace_second_then_first;
          firstError := Some (ErrOf "b");
          wg := 0 |};
     next := 2;
     goroutines := [(failing_task "a", PcExit (Some (ErrOf "a")));
                    (failing_task "b", PcExit (Some (ErrOf "b")))];
     returned := Some (Some (ErrOf "b")) |}.

(** * Properties *)

(** ** The context *)

Lemma map_index_insert {V : Type} (zero v : V) (m : gmap string V) (k : string) :
  map_index zero (<[k := v]> m) k = (v, true).
Proof. unfold map_index. by rewrite lookup_insert_eq. Qed.

Lemma map_index_absent {V : Type} (zero : V) (m : gmap string V) (k : string) :
  m !! k = None → map_index zero m k = (zero, false).
Proof. unfold map_index. by intros ->. Qed.

(** C5: after [SetExecutor(h, e)], [GetExecutor(h)] returns [(e, true)]
    and [Get(h)] returns [e]; on a host with no registered executor
    [GetExecutor(h)] returns the zero value and [false], and [Get(h)]
    panics. *)
Theorem Context_executor_registry (ctx : Context) (h : string) (e : TiOpsExecutor) :
  Context_GetExecutor (Context_SetExecutor ctx h e) h = (e, true)
  ∧ Context_Get (Context_SetExecutor ctx h e) h = Returned e
  ∧ (executors ctx !! h = None →
       Context_GetExecutor ctx h = (None, false)
       ∧ Context_Get ctx h = Panicked ("no init executor for " +:+ h)).
Proof.
  unfold Context_GetExecutor, Context_Get. cbn [executors Context_SetExecutor].
  rewrite map_index_insert. repeat split; try done.
  - by apply map_index_absent.
  - by rewrite map_index_absent.
Qed.

Lemma Context_executor_registry_witness :
  Context_GetExecutor NewContext "tikv-1" = (None, false)
  ∧ Context_Get NewContext "tikv-1" = Panicked "no init executor for tikv-1".
Proof.
  apply (Context_executor_registry NewContext "tikv-1" (Some 7)).
  reflexivity.
Defined.

(** C6: after [SetOutputs(h, o, e)], [GetOutputs(h)] returns
    [(o, e, true)] whatever the maps held for [h] before, although [o] is
    kept in the map [stderrs] and [e] in the map [stdouts]. *)
Theorem Context_outputs_roundtrip (ctx : Context) (h : string) (o e : bytes) :
  Context_GetOutputs (Context_SetOutputs ctx h o e) h = (o, e, true)
  ∧ (∀ o0 e0 : bytes,
       Context_GetOutputs
         (Context_SetOutputs (Context_SetOutputs ctx h o0 e0) h o e) h
       = (o, e, true))
  ∧ stderrs (Context_SetOutputs ctx h o e) !! h = Some o
  ∧ stdouts (Context_SetOutputs ctx h o e) !! h = Some e.
Proof.
  assert (∀ c, Context_GetOutputs (Context_SetOutputs c h o e) h = (o, e, true))
    as Hget.
  { intros c. unfold Context_GetOutputs. cbn [stdouts stderrs Context_SetOutputs].
    by rewrite !map_index_insert. }
  repeat split; auto; cbn [stdouts stderrs Context_SetOutputs];
    apply lookup_insert_eq.
Qed.

(** A task reaches the context: after a [Serial] that registers the
    executor of a host, the hard lookup finds it. *)
Example Serial_Execute_registers_executor :
  let '(err, ctx, _) :=
    Serial_Execute (mkSerial false [connect_task "tidb-1"; ok_task "start"])
                   NewContext in
  err = None ∧ Context_Get ctx "tidb-1" = Returned (Some 1).
Proof. vm_compute. by split. Qed.

(** ** Serial *)

Lemma calls_app (m : Method) (tr1 tr2 : list (Action Task)) :
  calls m (tr1 ++ tr2) = calls m tr1 ++ calls m tr2.
Proof. apply omap_app. Qed.

Lemma events_app (tr1 tr2 : list (Action Task)) :
  events (tr1 ++ tr2) = events tr1 ++ events tr2.
Proof. apply omap_app. Qed.

Lemma announcements_app (tr1 tr2 : list (Action Task)) :
  announcements (tr1 ++ tr2) = announcements tr1 ++ announcements tr2.
Proof. apply omap_app. Qed.

Lemma calls_announcement (m : Method) (prefix : string) (hide : bool) (t : Task) :
  calls m (announcement prefix hide t) = [].
Proof. unfold announcement. by repeat case_match. Qed.

Lemma events_announcement (prefix : string) (hide : bool) (t : Task) :
  events (announcement prefix hide t) = [].
Proof. unfold announcement. by repeat case_match. Qed.

(** One iteration of the loop of [Serial.Execute]. *)
Lemma Serial_Execute_loop_cons (hide : bool) (t : Task) (rest : list Task)
    (ctx : Context) :
  Serial_Execute_loop hide (t :: rest) ctx =
    let '(err, ctx1, inner) := Execute t ctx in
    let head := announcement "+ [ Serial ] - " hide t
                ++ [TaskBegin t; Call MExecute t inner err; TaskFinish t err] in
    match err with
    | Some e => (Some e, ctx1, head)
    | None =>
        let '(err', ctx2, tr) := Serial_Execute_loop hide rest ctx1 in
        (err', ctx2, head ++ tr)
    end.
Proof.
  cbn [Serial_Execute_loop].
  unfold mbind, Run_bind, call, method, announcement, PublishTaskBegin,
    PublishTaskFinish, log_Infof, skip, emit, mret, Run_ret.
  destruct (negb (isDisplayTask t)), (negb hide); cbn;
    destruct (Execute t ctx) as [[[e|] ctx1] inner]; cbn;
    try reflexivity;
    destruct (Serial_Execute_loop hide rest ctx1) as [[err' ctx2] tr];
    reflexivity.
Qed.

Lemma Serial_Execute_loop_calls (hide : bool) (inner : list Task) (ctx : Context) :
  let '(err, _, tr) := Serial_Execute_loop hide inner ctx in
  match err with
  | Some e =>
      ∃ pre tk post,
        inner = pre ++ tk :: post
        ∧ calls MExecute tr = map succeeded pre ++ [(tk, Some e)]
  | None => calls MExecute tr = map succeeded inner
  end.
Proof.
  revert ctx. induction inner as [|t rest IH]; intros ctx.
  - reflexivity.
  - rewrite Serial_Execute_loop_cons.
    destruct (Execute t ctx) as [[[e|] ctx1] sub]; cbn zeta.
    + exists [], t, rest. split; [done|].
      by rewrite calls_app, calls_announcement.
    + specialize (IH ctx1).
      destruct (Serial_Execute_loop hide rest ctx1) as [[[e'|] ctx2] tr].
      * destruct IH as (pre & tk & post & -> & Hc).
        exists (t :: pre), tk, post. split; [done|].
        rewrite !calls_app, calls_announcement, Hc. reflexivity.
      * rewrite !calls_app, calls_announcement, IH. reflexivity.
Qed.


(** Every event of [Serial.Execute] belongs to one call: a [Begin] before
    it and a [Finish] with the error it returned after it. *)
Lemma Serial_Execute_loop_events (hide : bool) (inner : list Task) (ctx : Context) :
  events (Serial_Execute_loop hide inner ctx).2
  = flat_map bracket (calls MExecute (Serial_Execute_loop hide inner ctx).2).
Proof.
  revert ctx. induction inner as [|t rest IH]; intros ctx.
  - reflexivity.
  - rewrite Serial_Execute_loop_cons.
    destruct (Execute t ctx) as [[[e|] ctx1] sub]; cbn zeta.
    + cbn [snd]. by rewrite events_app, calls_app, events_announcement,
        calls_announcement.
    + specialize (IH ctx1).
      destruct (Serial_Execute_loop hide rest ctx1) as [[err' ctx2] tr].
      cbn [snd] in *.
      rewrite !events_app, !calls_app, events_announcement,
        calls_announcement, IH. reflexivity.
Qed.

(** One iteration of the loop of [Serial.Rollback], at index [i]. *)
Lemma Serial_Rollback_loop_S (inner : list Task) (i : nat) (t : Task)
    (ctx : Context) :
  inner !! i = Some t →
  Serial_Rollback_loop inner (S i) ctx =
    let '(err, ctx1, sub) := Rollback t ctx in
    match err with
    | Some e => (Some e, ctx1, [Call MRollback t sub err])
    | None =>
        let '(err', ctx2, tr) := Serial_Rollback_loop inner i ctx1 in
        (err', ctx2, Call MRollback t sub err :: tr)
    end.
Proof.
  intros Ht. cbn [Serial_Rollback_loop]. rewrite Ht.
  unfold mbind, Run_bind, call, method, mret, Run_ret.
  destruct (Rollback t ctx) as [[[e|] ctx1] sub]; cbn; [reflexivity|].
  destruct (Serial_Rollback_loop inner i ctx1) as [[err' ctx2] tr].
  reflexivity.
Qed.

Lemma Serial_Rollback_loop_calls (inner : list Task) (n : nat) (ctx : Context) :
  (n ≤ length inner)%nat →
  let '(err, _, tr) := Serial_Rollback_loop inner n ctx in
  match err with
  | Some e =>
      ∃ pre tk post,
        take n inner = pre ++ tk :: post
        ∧ calls MRollback tr = map succeeded (reverse post) ++ [(tk, Some e)]
  | None => calls MRollback tr = map succeeded (reverse (take n inner))
  end.
Proof.
  revert ctx. induction n as [|i IH]; intros ctx Hn.
  - reflexivity.
  - destruct (lookup_lt_is_Some_2 inner i) as [t Ht]; [lia|].
    rewrite (Serial_Rollback_loop_S _ _ _ _ Ht), (take_S_r _ _ _ Ht).
    destruct (Rollback t ctx) as [[[e|] ctx1] sub].
    + exists (take i inner), t, []. split; [done|]. reflexivity.
    + specialize (IH ctx1 ltac:(lia)).
      destruct (Serial_Rollback_loop inner i ctx1) as [[[e|] ctx2] tr].
      * destruct IH as (pre & tk & post & Hpre & Hc).
        exists pre, tk, (post ++ [t]). split.
        { rewrite Hpre, <- app_assoc. reflexivity. }
        rewrite reverse_snoc. cbn. unfold calls in *. cbn. by rewrite Hc.
      * rewrite reverse_snoc. cbn. unfold calls in *. cbn. by rewrite IH.
Qed.

(** The actions of [Serial.Rollback] are calls of [Rollback] only. *)
Lemma Serial_Rollback_loop_only_calls (inner : list Task) (n : nat) (ctx : Context) :
  only_calls MRollback (Serial_Rollback_loop inner n ctx).2.
Proof.
  revert ctx. induction n as [|i IH]; intros ctx.
  - constructor.
  - destruct (inner !! i) as [t|] eqn:Ht.
    + rewrite (Serial_Rollback_loop_S _ _ _ _ Ht).
      destruct (Rollback t ctx) as [[[e|] ctx1] sub].
      * repeat constructor. eauto.
      * specialize (IH ctx1).
        destruct (Serial_Rollback_loop inner i ctx1) as [[err' ctx2] tr].
        constructor; eauto.
    + cbn [Serial_Rollback_loop]. rewrite Ht. constructor.
Qed.



Lemma all_events_app (tr1 tr2 : list (Action Task)) :
  all_events (tr1 ++ tr2) = all_events tr1 ++ all_events tr2.
Proof. apply flat_map_app. Qed.

Lemma all_events_announcement (prefix : string) (hide : bool) (t : Task) :
  all_events (announcement prefix hide t) = [].
Proof. unfold announcement. by repeat case_match. Qed.

(** The events of one dispatch of a quiet child. *)
Lemma all_events_dispatch (t : Task) (ctx : Context) :
  quiet t →
  all_events [TaskBegin t;
              Call MExecute t (Execute t ctx).2 (Execute t ctx).1.1;
              TaskFinish t (Execute t ctx).1.1]
  = [Begin t; Finish t (Execute t ctx).1.1].
Proof.
  intros Hq. unfold all_events at 1. cbn [flat_map published].
  fold (all_events (Execute t ctx).2). rewrite (Hq ctx). reflexivity.
Qed.

(** C7, as the code has it: [Execute] on a [Serial] of three leaf tasks
    publishes a [Begin] and then a [Finish] event for each child it
    executes, in list order, each [Finish] with the error that child
    returned: for all three children when the first two return nil, and
    up to the first failing child otherwise. *)
Theorem Serial_Execute_three_events (hide : bool) (t1 t2 t3 : Task)
    (ctx : Context) :
  quiet t1 → quiet t2 → quiet t3 →
  let '(err, _, tr) := Serial_Execute (mkSerial hide [t1; t2; t3]) ctx in
  (∃ e1, err = Some e1
         ∧ calls MExecute tr = [(t1, Some e1)]
         ∧ all_events tr = [Begin t1; Finish t1 (Some e1)])
  ∨ (∃ e2, err = Some e2
           ∧ calls MExecute tr = [(t1, None); (t2, Some e2)]
           ∧ all_events tr = [Begin t1; Finish t1 None;
                              Begin t2; Finish t2 (Some e2)])
  ∨ (calls MExecute tr = [(t1, None); (t2, None); (t3, err)]
     ∧ all_events tr = [Begin t1; Finish t1 None;
                        Begin t2; Finish t2 None;
                        Begin t3; Finish t3 err]).
Proof.
  intros Hq1 Hq2 Hq3. unfold Serial_Execute.
  cbn [Serial_hideDetailDisplay Serial_inner].
  rewrite Serial_Execute_loop_cons.
  pose proof (all_events_dispatch t1 ctx Hq1) as E1.
  destruct (Execute t1 ctx) as [[[e1|] ctx1] sub1]; cbn [fst snd] in E1; cbn zeta.
  { left. exists e1. repeat split.
    - by rewrite calls_app, calls_announcement.
    - by rewrite all_events_app, all_events_announcement, E1. }
  rewrite Serial_Execute_loop_cons.
  pose proof (all_events_dispatch t2 ctx1 Hq2) as E2.
  destruct (Execute t2 ctx1) as [[[e2|] ctx2] sub2]; cbn [fst snd] in E2; cbn zeta.
  { right; left. exists e2. repeat split.
    - by rewrite !calls_app, !calls_announcement.
    - by rewrite !all_events_app, !all_events_announcement, E1, E2. }
  rewrite Serial_Execute_loop_cons.
  pose proof (all_events_dispatch t3 ctx2 Hq3) as E3.
  destruct (Execute t3 ctx2) as [[[e3|] ctx3] sub3]; cbn [fst snd] in E3;
    cbn [Serial_Execute_loop]; unfold mret, Run_ret; cbn zeta;
    right; right; split;
    rewrite ?app_nil_r, ?calls_app, ?calls_announcement, ?all_events_app,
      ?all_events_announcement, ?E1, ?E2, ?E3; reflexivity.
Qed.

(** ** Parallel: what every schedule preserves *)

Lemma pool_split (l : list (Task * Pc)) (i : nat) (g g' : Task * Pc) :
  l !! i = Some g →
  ∃ l1 l2, l = l1 ++ g :: l2 ∧ <[i := g']> l = l1 ++ g' :: l2.
Proof.
  intros Hg. exists (take i l), (drop (S i) l). split.
  - symmetry. by apply take_drop_middle.
  - apply insert_take_drop. by eapply lookup_lt_Some.
Qed.

Lemma omap_middle {A B : Type} (f : A → option B) (l1 l2 : list A) (x : A) :
  omap f (l1 ++ x :: l2) = omap f l1 ++ option_list (f x) ++ omap f l2.
Proof. rewrite omap_app. cbn. by destruct (f x). Qed.

Lemma calls_snoc (m : Method) (tr : list (Action Task)) (a : Action Task) :
  calls m (tr ++ [a]) = calls m tr ++ option_list (call_of m a).
Proof. unfold calls. rewrite omap_app. cbn. by destruct (call_of m a). Qed.

Lemma goroutine_step_facts (m : Method) (hide : bool) (t : Task) (pc pc' : Pc)
    (sh sh' : Shared) :
  valid_pc m pc →
  goroutine m hide t pc sh = Some (pc', sh') →
  valid_pc m pc'
  ∧ (remaining (t, pc') < remaining (t, pc))%nat
  ∧ live (t, pc) = 1%nat
  ∧ ((1 ≤ wg sh)%nat → (wg sh' + 1 = wg sh + live (t, pc'))%nat)
  ∧ (∃ new, calls m (sh_trace sh') = calls m (sh_trace sh) ++ new
            ∧ option_list (result_of (t, pc'))
              = option_list (result_of (t, pc)) ++ new)
  ∧ (firstError sh' = None →
       firstError sh = None
       ∧ ∀ err, recorded_of (t, pc') = Some err →
                recorded_of (t, pc) = Some err ∨ err = None)
  ∧ (∀ e, firstError sh' = Some e →
       (firstError sh = Some e
        ∧ (recorded_of (t, pc) = Some (Some e) →
           recorded_of (t, pc') = Some (Some e)))
       ∨ recorded_of (t, pc') = Some (Some e)).
Proof.
  intros Hv Hstep.
  destruct m, pc; cbn in Hv; try done; cbn in Hstep;
    unfold sh_call, sh_record, method in Hstep;
    repeat case_match; simplify_eq;
    cbn -[calls]; rewrite ?calls_snoc; cbn;
    (split_and!;
       [done | lia | done | cbn; lia
       | eexists; split; [try done; by rewrite ?app_nil_r | cbn; try done]
       | ..]).
  all: try (intros ?; try intros ?; simplify_eq; auto; fail).
  all: naive_solver.
Qed.

Lemma Parallel_init_Inv (m : Method) (pt : Parallel) (ctx : Context) :
  Inv m pt (Parallel_init ctx).
Proof.
  split; cbn; try done; try lia.
Qed.

Lemma Permutation_app_middle {A : Type} (a b c new : list A) :
  (a ++ b ++ c) ++ new ≡ₚ a ++ (b ++ new) ++ c.
Proof. rewrite <- !app_assoc. do 2 f_equiv. apply Permutation_app_comm. Qed.

Lemma Parallel_step_Inv (m : Method) (pt : Parallel) (c : Choice)
    (st st' : PState) :
  Inv m pt st → Parallel_step m pt c st = Some st' → Inv m pt st'.
Proof.
  intros [Hnext Htasks Hvalid Hwg Hcalls Hnil Hsome Hret] Hstep.
  destruct c as [|i]; cbn in Hstep.
  - destruct (returned st) as [r|] eqn:Hr; [done|].
    destruct (Parallel_inner pt !! next st) as [t|] eqn:Ht.
    + (* a goroutine is started *)
      simplify_eq. pose proof (lookup_lt_Some _ _ _ Ht) as Hlt.
      split; cbn -[calls].
      * lia.
      * rewrite map_app, Htasks. cbn. symmetry. by apply take_S_r.
      * apply Forall_app. split; [done|]. constructor; [|constructor].
        by destruct m.
      * rewrite sum_list_with_app, Hwg. cbn. destruct m; cbn; lia.
      * rewrite omap_app, Hcalls. destruct m; cbn; by rewrite app_nil_r.
      * intros H. apply Forall_app. split; [auto|].
        constructor; [|constructor]. by destruct m.
      * intros e He. apply Exists_app. left. auto.
      * done.
    + (* wg.Wait() returns *)
      destruct (wg (shared st)) as [|n] eqn:Hz; [|done]. simplify_eq.
      split; cbn -[calls]; try done.
      * by rewrite Hz.
      * intros err [= <-]. split; [done|]. split; [|done].
        apply lookup_ge_None in Ht. lia.
  - destruct (goroutines st !! i) as [[t pc]|] eqn:Hg; [|done].
    destruct (goroutine m (Parallel_hideDetailDisplay pt) t pc (shared st))
      as [[pc' sh']|] eqn:Hgo; [|done].
    simplify_eq.
    destruct (pool_split _ _ _ (t, pc') Hg) as (l1 & l2 & Hl & Hl').
    rewrite Hl in *.
    assert (valid_pc m pc) as Hv.
    { pose proof Hvalid as Hv. apply Forall_app in Hv as [_ Hv].
      by apply Forall_cons in Hv as [Hv _]. }
    destruct (goroutine_step_facts _ _ _ _ _ _ _ Hv Hgo)
      as (Hv' & _ & Hlive & Hwg' & (new & Hc1 & Hc2) & Hn' & Hs').
    split; cbn -[calls]; rewrite ?Hl'.
    + done.
    + rewrite map_app in *. exact Htasks.
    + rewrite !Forall_app, !Forall_cons in Hvalid |- *.
      by destruct Hvalid as (? & _ & ?).
    + rewrite sum_list_with_app in *. cbn in *. lia.
    + rewrite Hc1, Hcalls, !omap_middle, Hc2.
      apply Permutation_app_middle.
    + intros Hf. destruct (Hn' Hf) as [Hf0 Hrec].
      specialize (Hnil Hf0). rewrite !Forall_app, !Forall_cons in Hnil |- *.
      destruct Hnil as (H1 & Hg0 & H2). split_and!; try done.
      intros err Herr. destruct (Hrec err Herr); auto.
    + intros e He. destruct (Hs' e He) as [[He0 Himp]|Hnew].
      * specialize (Hsome e He0).
        rewrite !Exists_app, !Exists_cons in Hsome |- *.
        destruct Hsome as [?|[?|?]]; auto.
      * rewrite Exists_app, Exists_cons. auto.
    + intros err Herr. destruct (Hret err Herr) as (-> & Hn & Hz).
      rewrite sum_list_with_app in Hwg. cbn in Hwg. lia.
Qed.

Lemma Parallel_run_Inv (m : Method) (pt : Parallel) (sched : list Choice)
    (st st' : PState) :
  Inv m pt st → Parallel_run m pt sched st = Some st' → Inv m pt st'.
Proof.
  revert st. induction sched as [|c sched IH]; intros st HI Hrun; cbn in Hrun.
  - by simplify_eq.
  - destruct (Parallel_step m pt c st) as [st1|] eqn:Hstep; [|done].
    eauto using Parallel_step_Inv.
Qed.

Lemma Parallel_step_decreases (m : Method) (pt : Parallel) (c : Choice)
    (st st' : PState) :
  Inv m pt st → Parallel_step m pt c st = Some st' →
  (steps_left pt st' < steps_left pt st)%nat.
Proof.
  intros HI Hstep. unfold steps_left.
  destruct c as [|i]; cbn in Hstep.
  - destruct (returned st) as [r|] eqn:Hr; [done|].
    destruct (Parallel_inner pt !! next st) as [t|] eqn:Ht.
    + simplify_eq. pose proof (lookup_lt_Some _ _ _ Ht) as Hlt. cbn.
      rewrite sum_list_with_app. cbn.
      assert (remaining (t, entry m) ≤ 6)%nat by (destruct m; cbn; lia).
      lia.
    + destruct (wg (shared st)) as [|n]; [|done]. simplify_eq. cbn. lia.
  - destruct (goroutines st !! i) as [[t pc]|] eqn:Hg; [|done].
    destruct (goroutine m (Parallel_hideDetailDisplay pt) t pc (shared st))
      as [[pc' sh']|] eqn:Hgo; [|done].
    simplify_eq. cbn.
    destruct (pool_split _ _ _ (t, pc') Hg) as (l1 & l2 & Hl & ->).
    pose proof (inv_valid _ _ _ HI) as Hvalid. rewrite Hl in Hvalid |- *.
    apply Forall_app in Hvalid as [_ Hv]. apply Forall_cons in Hv as [Hv _].
    cbn [snd] in Hv.
    destruct (goroutine_step_facts _ _ _ _ _ _ _ Hv Hgo) as (_ & Hlt & _).
    rewrite !sum_list_with_app. cbn [sum_list_with]. lia.
Qed.

Lemma live_goroutine (l : list (Task * Pc)) :
  sum_list_with live l ≠ 0%nat →
  ∃ i t pc, l !! i = Some (t, pc) ∧ ∀ err, pc ≠ PcExit err.
Proof.
  induction l as [|[t pc] l IH]; cbn; [done|]. intros Hs.
  destruct (decide (live (t, pc) = 0%nat)) as [Hz|Hz].
  - destruct IH as (i & t' & pc' & Hi & Hpc); [lia|].
    exists (S i), t', pc'. done.
  - exists 0%nat, t, pc. split; [done|]. intros err ->. done.
Qed.

Lemma goroutine_enabled (m : Method) (hide : bool) (t : Task) (pc : Pc)
    (sh : Shared) :
  valid_pc m pc → (∀ err, pc ≠ PcExit err) →
  is_Some (goroutine m hide t pc sh).
Proof.
  intros Hv Hne.
  destruct m, pc; cbn in Hv |- *; try done; try (by eexists);
    try (by destruct (Hne err));
    unfold sh_call; by destruct (method _ t (sh_ctx sh)) as [[? ?] ?].
Qed.

(** No deadlock: while the call has not returned, some goroutine can step. *)
Lemma Parallel_progress (m : Method) (pt : Parallel) (st : PState) :
  Inv m pt st → returned st = None →
  ∃ c st', Parallel_step m pt c st = Some st'.
Proof.
  intros HI Hr.
  destruct (Parallel_inner pt !! next st) as [t|] eqn:Ht.
  { exists RunMain. cbn. rewrite Hr, Ht. eauto. }
  destruct (wg (shared st)) as [|n] eqn:Hz.
  { exists RunMain. cbn. rewrite Hr, Ht, Hz. eauto. }
  destruct (live_goroutine (goroutines st)) as (i & t & pc & Hi & Hpc).
  { rewrite <- (inv_wg _ _ _ HI). lia. }
  assert (valid_pc m pc) as Hv.
  { pose proof (inv_valid _ _ _ HI) as Hvalid.
    rewrite Forall_lookup in Hvalid. apply (Hvalid i (t, pc) Hi). }
  destruct (goroutine_enabled m (Parallel_hideDetailDisplay pt) t pc (shared st)
              Hv Hpc) as [[pc' sh'] Hgo].
  exists (RunGo i). cbn. rewrite Hi, Hgo. eauto.
Qed.

(** Every state a schedule reaches can be run on until the call returns. *)
Lemma Parallel_completes (m : Method) (pt : Parallel) (n : nat) (st : PState) :
  (steps_left pt st ≤ n)%nat → Inv m pt st →
  ∃ sched st', Parallel_run m pt sched st = Some st' ∧ is_Some (returned st').
Proof.
  revert st. induction n as [|n IH]; intros st Hn HI.
  - destruct (returned st) as [r|] eqn:Hr.
    + exists [], st. split; [done|]. rewrite Hr. eauto.
    + unfold steps_left in Hn. rewrite Hr in Hn. lia.
  - destruct (returned st) as [r|] eqn:Hr.
    + exists [], st. split; [done|]. rewrite Hr. eauto.
    + destruct (Parallel_progress m pt st HI Hr) as (c & st1 & Hstep).
      pose proof (Parallel_step_decreases _ _ _ _ _ HI Hstep) as Hlt.
      destruct (IH st1) as (sched & st' & Hrun & Hret);
        [lia | by eapply Parallel_step_Inv |].
      exists (c :: sched), st'. split; [|done]. cbn. by rewrite Hstep.
Qed.

Lemma exited_goroutines (l : list (Task * Pc)) :
  sum_list_with live l = 0%nat → Forall (λ g, ∃ err, g.2 = PcExit err) l.
Proof.
  induction l as [|[t pc] l IH]; cbn; intros Hs; constructor.
  - destruct pc; cbn in Hs; try lia. eauto.
  - apply IH. lia.
Qed.

Lemma exited_results (l : list (Task * Pc)) :
  Forall (λ g, ∃ err, g.2 = PcExit err) l →
  map fst (omap result_of l) = map fst l
  ∧ (Forall (λ g, ∀ err, recorded_of g = Some err → err = None) l
     ↔ Forall (λ r : Task * error, r.2 = None) (omap result_of l)).
Proof.
  induction 1 as [|[t pc] l [err Hpc] Hl [IH1 IH2]]; [done|].
  cbn in Hpc. subst pc. cbn. rewrite IH1. split; [done|].
  rewrite !Forall_cons, IH2. cbn.
  split; (intros [H1 H2]; split; [|done]); [by apply H1 | by intros ? [= <-]].
Qed.

Lemma recorded_result (l : list (Task * Pc)) (e : Err) :
  Exists (λ g, recorded_of g = Some (Some e)) l →
  Exists (λ r : Task * error, r.2 = Some e) (omap result_of l).
Proof.
  induction 1 as [[t pc] l Hg|[t pc] l Hl IH].
  - destruct pc; cbn in Hg; try done; simplify_eq; by left.
  - cbn. destruct (result_of (t, pc)); [by right|done].
Qed.

Lemma Parallel_returned (m : Method) (pt : Parallel) (st : PState) (err : error) :
  Inv m pt st → returned st = Some err →
  all_exited pt st
  ∧ map fst (calls m (sh_trace (shared st))) ≡ₚ Parallel_inner pt
  ∧ (err = None ↔
     Forall (λ r : Task * error, r.2 = None) (calls m (sh_trace (shared st))))
  ∧ (∀ e, err = Some e →
     Exists (λ r : Task * error, r.2 = Some e) (calls m (sh_trace (shared st)))).
Proof.
  intros HI Hr. destruct (inv_returned _ _ _ HI err Hr) as (-> & Hn & Hz).
  assert (Forall (λ g, ∃ err, g.2 = PcExit err) (goroutines st)) as Hex.
  { apply exited_goroutines. by rewrite <- (inv_wg _ _ _ HI). }
  destruct (exited_results _ Hex) as [Hfst Hnone].
  assert (map fst (goroutines st) = Parallel_inner pt) as Htasks.
  { rewrite (inv_tasks _ _ _ HI), Hn. apply firstn_all. }
  split_and!.
  - done.
  - rewrite <- Htasks, <- Hfst. apply Permutation_map, (inv_calls _ _ _ HI).
  - rewrite (inv_calls _ _ _ HI), <- Hnone. split.
    + apply (inv_nil _ _ _ HI).
    + intros Hall. destruct (firstError (shared st)) as [e|] eqn:He; [|done].
      pose proof (inv_some _ _ _ HI e He) as Hsome.
      apply Exists_exists in Hsome as (g & Hin & Hg).
      rewrite Forall_forall in Hall. by specialize (Hall g Hin _ Hg).
  - intros e He. rewrite (inv_calls _ _ _ HI).
    apply recorded_result. by apply (inv_some _ _ _ HI).
Qed.

(** ** Parallel: the result of a call *)

Lemma Parallel_call_Some (m : Method) (pt : Parallel) (sched : list Choice)
    (ctx ctx' : Context) (err : error) (tr : list (Action Task)) :
  Parallel_call m pt sched ctx = Some (err, ctx', tr) →
  ∃ st, Parallel_run m pt sched (Parallel_init ctx) = Some st
        ∧ Inv m pt st
        ∧ returned st = Some err
        ∧ sh_ctx (shared st) = ctx'
        ∧ sh_trace (shared st) = tr.
Proof.
  unfold Parallel_call. intros H.
  destruct (Parallel_run m pt sched (Parallel_init ctx)) as [st|] eqn:Hrun;
    [|done].
  destruct (returned st) as [r|] eqn:Hr; [|done]. simplify_eq.
  exists st. split_and!; try done.
  eapply Parallel_run_Inv; [apply Parallel_init_Inv | done].
Qed.

(** The call returns under some schedule. *)
Lemma Parallel_call_returns (m : Method) (pt : Parallel) (ctx : Context) :
  ∃ sched r, Parallel_call m pt sched ctx = Some r.
Proof.
  destruct (Parallel_completes m pt _ (Parallel_init ctx) (le_n _)
              (Parallel_init_Inv m pt ctx)) as (sched & st & Hrun & [err Hr]).
  exists sched, (err, sh_ctx (shared st), sh_trace (shared st)).
  unfold Parallel_call. by rewrite Hrun, Hr.
Qed.

(** C4: [Parallel.Execute] returns under some schedule; under every
    schedule, when it returns the goroutine of every child has ended,
    [Execute] has been called once on each child, whatever the other
    children returned, and the error returned is nil exactly when every
    one of these calls returned nil. *)
Theorem Parallel_Execute_runs_every_child (pt : Parallel) (ctx : Context) :
  (∃ sched r, Parallel_Execute pt sched ctx = Some r)
  ∧ (∀ sched st,
       Parallel_run MExecute pt sched (Parallel_init ctx) = Some st →
       is_Some (returned st) → all_exited pt st)
  ∧ (∀ sched err ctx' tr,
       Parallel_Execute pt sched ctx = Some (err, ctx', tr) →
       map fst (calls MExecute tr) ≡ₚ Parallel_inner pt
       ∧ (err = None
          ↔ Forall (λ r : Task * error, r.2 = None) (calls MExecute tr))).
Proof.
  split_and!.
  - apply Parallel_call_returns.
  - intros sched st Hrun [err Hr].
    assert (Inv MExecute pt st) as HI
      by (eapply Parallel_run_Inv; [apply Parallel_init_Inv | done]).
    by destruct (Parallel_returned _ _ _ _ HI Hr) as (? & _).
  - intros sched err ctx' tr H.
    apply Parallel_call_Some in H as (st & _ & HI & Hr & _ & <-).
    by destruct (Parallel_returned _ _ _ _ HI Hr) as (_ & ? & ? & _).
Qed.


Lemma Parallel_Execute_runs_every_child_witness :
  map fst (calls MExecute trace_first_then_second) ≡ₚ Parallel_inner two_failing
  ∧ (Some (ErrOf "a") = None
     ↔ Forall (λ r : Task * error, r.2 = None) (calls MExecute trace_first_then_second)).
Proof.
  apply (proj2 (proj2 (Parallel_Execute_runs_every_child two_failing NewContext))
           first_then_second (Some (ErrOf "a")) NewContext trace_first_then_second).
  vm_compute. reflexivity.
Defined.



(** C7, as stated, fails: when the first of three leaf tasks fails, one
    [Begin] and one [Finish] event are published, not three of each. *)
Lemma Serial_Execute_three_events_cut_short :
  let s := mkSerial false [failing_task "a"; ok_task "b"; ok_task "c"] in
  let es := all_events (Serial_Execute s NewContext).2 in
  begins es = [failing_task "a"]
  ∧ finishes es = [(failing_task "a", Some (ErrOf "a"))]
  ∧ length (begins es) ≠ 3%nat
  ∧ length (finishes es) ≠ 3%nat.
Proof. vm_compute. split_and!; [reflexivity | reflexivity | lia | lia]. Qed.

Lemma quiet_Leaf (name description : string)
    (execute rollback : Context → error * Context) :
  quiet (Leaf name description execute rollback).
Proof. intros ctx. cbn. by destruct (execute ctx). Qed.

Lemma Serial_Execute_three_events_witness :
  all_events
    (Serial_Execute
       (mkSerial false [ok_task "a"; ok_task "b"; failing_task "c"])
       NewContext).2
  = [Begin (ok_task "a"); Finish (ok_task "a") None;
     Begin (ok_task "b"); Finish (ok_task "b") None;
     Begin (failing_task "c"); Finish (failing_task "c") (Some (ErrOf "c"))].
Proof.
  pose proof (Serial_Execute_three_events false
                (ok_task "a") (ok_task "b") (failing_task "c") NewContext
                (λ ctx, eq_refl) (λ ctx, eq_refl) (λ ctx, eq_refl)) as H.
  vm_compute in H. vm_compute.
  destruct H as [(e1 & _ & Hc & _) | [(e2 & _ & Hc & _) | [_ H]]];
    [discriminate Hc | discriminate Hc | exact H].
Defined.

(** ** Rollback publishes and prints nothing *)

Lemma only_calls_silent (m : Method) (tr : list (Action Task)) :
  only_calls m tr → events tr = [] ∧ announcements tr = [].
Proof.
  induction 1 as [|a tr (t & sub & err & ->) _ [IH1 IH2]]; [done|].
  by cbn.
Qed.

Lemma Parallel_Rollback_step_only_calls (pt : Parallel) (c : Choice)
    (st st' : PState) :
  Parallel_step MRollback pt c st = Some st' →
  only_calls MRollback (sh_trace (shared st)) →
  only_calls MRollback (sh_trace (shared st')).
Proof.
  intros Hstep Htr. destruct c as [|i]; cbn in Hstep.
  - repeat case_match; by simplify_eq.
  - destruct (goroutines st !! i) as [[t pc]|]; [|done].
    destruct pc; cbn in Hstep; try done; unfold sh_call, sh_record in Hstep;
      repeat case_match; simplify_eq; cbn; try done.
    apply Forall_app. split; [done|]. repeat constructor. eauto.
Qed.

Lemma Parallel_Rollback_run_only_calls (pt : Parallel) (sched : list Choice)
    (st st' : PState) :
  Parallel_run MRollback pt sched st = Some st' →
  only_calls MRollback (sh_trace (shared st)) →
  only_calls MRollback (sh_trace (shared st')).
Proof.
  revert st. induction sched as [|c sched IH]; intros st Hrun Htr; cbn in Hrun.
  - by simplify_eq.
  - destruct (Parallel_step MRollback pt c st) as [st1|] eqn:Hstep; [|done].
    eauto using Parallel_Rollback_step_only_calls.
Qed.

(** C10: [Rollback] of a [Serial] or of a [Parallel] publishes no
    [Begin] or [Finish] event and prints no announcement, whatever the
    flag: all it does is call [Rollback] on children. *)
Theorem Rollback_is_silent (hide : bool) (inner : list Task) (ctx : Context) :
  (let tr := (Serial_Rollback (mkSerial hide inner) ctx).2 in
   only_calls MRollback tr ∧ events tr = [] ∧ announcements tr = [])
  ∧ (∀ sched err ctx' tr,
       Parallel_Rollback (mkParallel hide inner) sched ctx = Some (err, ctx', tr) →
       only_calls MRollback tr ∧ events tr = [] ∧ announcements tr = []).
Proof.
  split.
  - pose proof (Serial_Rollback_loop_only_calls inner (length inner) ctx) as H.
    split; [exact H|]. by apply only_calls_silent in H.
  - intros sched err ctx' tr H.
    apply Parallel_call_Some in H as (st & Hrun & _ & _ & _ & <-).
    assert (only_calls MRollback (sh_trace (shared st))) as Htr.
    { eapply Parallel_Rollback_run_only_calls; [exact Hrun|]. constructor. }
    split; [exact Htr|]. by apply only_calls_silent in Htr.
Qed.

(** ** Composites without children *)

Lemma Parallel_call_empty (m : Method) (hide : bool) (sched : list Choice)
    (ctx : Context) (r : error * Context * list (Action Task)) :
  Parallel_call m (mkParallel hide []) sched ctx = Some r →
  sched = [RunMain] ∧ r = (None, ctx, []).
Proof.
  unfold Parallel_call. destruct sched as [|[|i] sched]; cbn; try done.
  destruct sched as [|[|j] sched]; cbn; try done.
  by intros [= <-].
Qed.

(** C9: on a composite with no child, [Execute] and [Rollback] return
    nil, publish and print nothing, and leave the context as it was. *)
Theorem empty_composite_does_nothing (hide : bool) (ctx : Context) :
  Serial_Execute (mkSerial hide []) ctx = (None, ctx, [])
  ∧ Serial_Rollback (mkSerial hide []) ctx = (None, ctx, [])
  ∧ Parallel_Execute (mkParallel hide []) [RunMain] ctx = Some (None, ctx, [])
  ∧ Parallel_Rollback (mkParallel hide []) [RunMain] ctx = Some (None, ctx, [])
  ∧ (∀ sched r,
       Parallel_Execute (mkParallel hide []) sched ctx = Some r
       ∨ Parallel_Rollback (mkParallel hide []) sched ctx = Some r →
       r = (None, ctx, [])).
Proof.
  split_and!; try reflexivity.
  intros sched r [H|H]; by apply Parallel_call_empty in H as [_ ->].
Qed.

Lemma Rollback_is_silent_witness :
  only_calls MRollback trace_rollback_in_order
  ∧ events trace_rollback_in_order = []
  ∧ announcements trace_rollback_in_order = [].
Proof.
  apply (proj2 (Rollback_is_silent false (Parallel_inner two_failing) NewContext)
           rollback_in_order None NewContext trace_rollback_in_order).
  vm_compute. reflexivity.
Defined.

Lemma empty_composite_does_nothing_witness :
  (None, NewContext, []) = (None : error, NewContext, [] : list (Action Task)).
Proof.
  apply (proj2 (proj2 (proj2 (proj2
           (empty_composite_does_nothing false NewContext))))
           [RunMain] (None, NewContext, [])).
  left. vm_compute. reflexivity.
Defined.

(** ** The flag and the classification *)

Lemma without_announcements_app (tr1 tr2 : list (Action Task)) :
  without_announcements (tr1 ++ tr2)
  = without_announcements tr1 ++ without_announcements tr2.
Proof. apply omap_app. Qed.

Lemma without_announcements_announcement (prefix : string) (hide : bool)
    (t : Task) :
  without_announcements (announcement prefix hide t) = [].
Proof. unfold announcement. by repeat case_match. Qed.

Lemma calls_without_announcements (m : Method) (tr : list (Action Task)) :
  calls m (without_announcements tr) = calls m tr.
Proof.
  unfold calls, without_announcements.
  induction tr as [|a tr IH]; [done|].
  destruct a; cbn; rewrite ?IH; done.
Qed.

Lemma all_events_without_announcements (tr : list (Action Task)) :
  all_events (without_announcements tr) = all_events tr.
Proof.
  unfold all_events, without_announcements.
  induction tr as [|a tr IH]; [done|].
  destruct a; cbn; by rewrite ?IH.
Qed.

Lemma same_action_eq (l l' : list (Action Task)) :
  Forall2 (same_action eq) l l' → l = l'.
Proof.
  intros H. apply list_eq_Forall2.
  eapply Forall2_impl; [exact H|]. intros a a' Ha. by destruct Ha; subst.
Qed.

Section Simulation.
Variable R : Task → Task → Prop.
Hypothesis R_methods : ∀ t t', R t t' → same_methods t t'.

Lemma Serial_Execute_loop_sim (hide hide' : bool) (inner inner' : list Task) :
  Forall2 R inner inner' →
  ∀ ctx,
    let '(err, c, tr) := Serial_Execute_loop hide inner ctx in
    let '(err', c', tr') := Serial_Execute_loop hide' inner' ctx in
    err = err' ∧ c = c'
    ∧ Forall2 (same_action R) (without_announcements tr)
              (without_announcements tr').
Proof.
  induction 1 as [|t t' rest rest' Ht _ IH]; intros ctx.
  - cbn. by split_and!.
  - rewrite !Serial_Execute_loop_cons.
    destruct (R_methods _ _ Ht) as (_ & <- & _).
    destruct (Execute t ctx) as [[[e|] ctx1] sub]; cbn zeta.
    + split_and!; try done.
      rewrite !without_announcements_app, !without_announcements_announcement.
      cbn. repeat constructor; done.
    + specialize (IH ctx1).
      destruct (Serial_Execute_loop hide rest ctx1) as [[err1 c1] tr1].
      destruct (Serial_Execute_loop hide' rest' ctx1) as [[err1' c1'] tr1'].
      destruct IH as (-> & -> & IH). split_and!; try done.
      rewrite !without_announcements_app, !without_announcements_announcement.
      cbn. repeat constructor; done.
Qed.

Lemma same_shared_emit (a a' : Action Task) (sh sh' : Shared) :
  same_shared R sh sh' →
  Forall2 (same_action R) (without_announcements [a])
          (without_announcements [a']) →
  same_shared R (sh_emit a sh) (sh_emit a' sh').
Proof.
  intros (Hc & Hf & Hw & Htr) Ha. split_and!; try done. cbn.
  rewrite !without_announcements_app. by apply Forall2_app.
Qed.

Lemma goroutine_sim (m : Method) (hide hide' : bool) (t t' : Task)
    (pc pc1 : Pc) (sh sh' sh1 : Shared) :
  R t t' → same_shared R sh sh' →
  goroutine m hide t pc sh = Some (pc1, sh1) →
  ∃ sh1', goroutine m hide' t' pc sh' = Some (pc1, sh1')
          ∧ same_shared R sh1 sh1'.
Proof.
  intros Ht Hsh Hstep.
  destruct (R_methods _ _ Ht) as (Hd & He & Hr).
  pose proof Hsh as (Hc & Hf & Hw & Htr).
  destruct m, pc; cbn in Hstep |- *; try done.
  - (* the announcement *)
    simplify_eq. eexists. split; [done|].
    destruct (negb (isDisplayTask t)), (negb hide),
      (negb (isDisplayTask t')), (negb hide'); try done;
      split_and!; try done; cbn;
      rewrite ?without_announcements_app; cbn; by rewrite ?app_nil_r.
  - simplify_eq. eexists. split; [done|].
    apply same_shared_emit; [done|]. repeat constructor. done.
  - unfold sh_call, method in *. rewrite <- He, <- Hc.
    destruct (Execute t (sh_ctx sh)) as [[err c1] sub]. simplify_eq.
    eexists. split; [done|]. split_and!; try done. cbn.
    rewrite !without_announcements_app. apply Forall2_app; [done|].
    repeat constructor. done.
  - simplify_eq. eexists. split; [done|].
    apply same_shared_emit; [done|]. repeat constructor. done.
  - simplify_eq. eexists. split; [done|].
    unfold sh_record, same_shared. rewrite <- Hf.
    destruct err, (firstError sh) eqn:Hfe; cbn; split_and!;
      try done; congruence.
  - simplify_eq. eexists. split; [done|]. split_and!; try done.
    cbn. by rewrite Hw.
  - unfold sh_call, method in *. rewrite <- Hr, <- Hc.
    destruct (Rollback t (sh_ctx sh)) as [[err c1] sub]. simplify_eq.
    eexists. split; [done|]. split_and!; try done. cbn.
    rewrite !without_announcements_app. apply Forall2_app; [done|].
    repeat constructor. done.
  - simplify_eq. eexists. split; [done|].
    unfold sh_record, same_shared. rewrite <- Hf.
    destruct err, (firstError sh) eqn:Hfe; cbn; split_and!;
      try done; congruence.
  - simplify_eq. eexists. split; [done|]. split_and!; try done.
    cbn. by rewrite Hw.
Qed.

Lemma Parallel_step_sim (m : Method) (hide hide' : bool)
    (inner inner' : list Task) (c : Choice) (st st' st1 : PState) :
  Forall2 R inner inner' → same_state R st st' →
  Parallel_step m (mkParallel hide inner) c st = Some st1 →
  ∃ st1', Parallel_step m (mkParallel hide' inner') c st' = Some st1'
          ∧ same_state R st1 st1'.
Proof.
  intros Hin (Hsh & Hn & Hg & Hr) Hstep.
  destruct c as [|i]; cbn in Hstep |- *.
  - rewrite <- Hr, <- Hn.
    destruct (returned st) as [r|]; [done|].
    destruct (inner !! next st) as [t|] eqn:Ht.
    + destruct (Forall2_lookup_l _ _ _ _ _ Hin Ht) as (t' & -> & Htt).
      simplify_eq. eexists. split; [done|].
      destruct Hsh as (Hc & Hf & Hw & Htr).
      unfold same_state, same_shared. cbn.
      split_and!; try done; try congruence.
      apply Forall2_app; [done|]. repeat constructor; done.
    + assert (inner' !! next st = None) as ->.
      { apply lookup_ge_None. apply lookup_ge_None in Ht.
        by rewrite <- (Forall2_length _ _ _ Hin). }
      destruct Hsh as (Hc & Hf & Hw & Htr). rewrite <- Hw, <- Hf.
      destruct (wg (shared st)) eqn:Hz; [|done]. simplify_eq.
      eexists. split; [done|]. unfold same_state, same_shared. cbn.
      split_and!; try done; congruence.
  - destruct (goroutines st !! i) as [[t pc]|] eqn:Hi; [|done].
    destruct (Forall2_lookup_l _ _ _ _ _ Hg Hi) as ([t' pc'] & -> & Htt & Hpc).
    cbn in Htt, Hpc. subst pc'.
    destruct (goroutine m hide t pc (shared st)) as [[pc1 sh1]|] eqn:Hgo;
      [|done].
    destruct (goroutine_sim m hide hide' t t' pc pc1 _ _ sh1 Htt Hsh Hgo)
      as (sh1' & -> & Hsh1).
    simplify_eq. eexists. split; [done|]. unfold same_state. cbn.
    split_and!; try done. apply Forall2_insert; done.
Qed.

Lemma Parallel_run_sim (m : Method) (hide hide' : bool)
    (inner inner' : list Task) (sched : list Choice) (st st' st1 : PState) :
  Forall2 R inner inner' → same_state R st st' →
  Parallel_run m (mkParallel hide inner) sched st = Some st1 →
  ∃ st1', Parallel_run m (mkParallel hide' inner') sched st' = Some st1'
          ∧ same_state R st1 st1'.
Proof.
  intros Hin. revert st st'.
  induction sched as [|c sched IH]; intros st st' Hst Hrun; cbn in Hrun |- *.
  - simplify_eq. eauto.
  - destruct (Parallel_step m (mkParallel hide inner) c st) as [st2|] eqn:Hs;
      [|done].
    destruct (Parallel_step_sim _ _ hide' _ _ _ _ _ _ Hin Hst Hs)
      as (st2' & -> & Hst2).
    eauto.
Qed.

Lemma Parallel_call_sim (m : Method) (hide hide' : bool)
    (inner inner' : list Task) (sched : list Choice) (ctx c : Context)
    (err : error) (tr : list (Action Task)) :
  Forall2 R inner inner' →
  Parallel_call m (mkParallel hide inner) sched ctx = Some (err, c, tr) →
  ∃ tr', Parallel_call m (mkParallel hide' inner') sched ctx
         = Some (err, c, tr')
         ∧ Forall2 (same_action R) (without_announcements tr)
                   (without_announcements tr').
Proof.
  intros Hin Hcall. unfold Parallel_call in *.
  destruct (Parallel_run m (mkParallel hide inner) sched (Parallel_init ctx))
    as [st|] eqn:Hrun; [|done].
  destruct (Parallel_run_sim m hide hide' inner inner' sched
              (Parallel_init ctx) (Parallel_init ctx) st Hin)
    as (st' & -> & (Hc & Hf & Hw & Htr) & Hn & Hg & Hr); [|done|].
  { split_and!; try done; constructor. }
  rewrite <- Hr. destruct (returned st) as [r|]; [|done]. simplify_eq.
  exists (sh_trace (shared st')). rewrite <- Hc. done.
Qed.
End Simulation.

Lemma same_methods_refl (t : Task) : same_methods t t.
Proof. by split_and!. Qed.

Lemma same_methods_retype (k : TaskType) (t : Task) : same_methods t (retype k t).
Proof. by split_and!. Qed.

(** C8: take two composites whose children are pairwise the same tasks
    up to their dynamic type, with any two values of the flag.  On the
    same context (and, for [Parallel], under the same schedule) [Execute]
    returns the same error, leaves the same context and performs, apart
    from the announcements, the same actions in the same order: the same
    calls with the same results and the same events.  With the same
    children and two values of the flag, the calls and all the events
    published are equal. *)
Theorem display_governs_announcements_only (hide hide' : bool)
    (inner inner' : list Task) (ctx : Context) :
  Forall2 same_methods inner inner' →
  (let '(err, c, tr) := Serial_Execute (mkSerial hide inner) ctx in
   let '(err', c', tr') := Serial_Execute (mkSerial hide' inner') ctx in
   err = err' ∧ c = c'
   ∧ Forall2 (same_action same_methods) (without_announcements tr)
             (without_announcements tr'))
  ∧ (∀ sched err c tr,
       Parallel_Execute (mkParallel hide inner) sched ctx = Some (err, c, tr) →
       ∃ tr', Parallel_Execute (mkParallel hide' inner') sched ctx
              = Some (err, c, tr')
              ∧ Forall2 (same_action same_methods) (without_announcements tr)
                        (without_announcements tr'))
  ∧ (let '(err, c, tr) := Serial_Execute (mkSerial hide inner) ctx in
     let '(err', c', tr') := Serial_Execute (mkSerial hide' inner) ctx in
     err = err' ∧ c = c'
     ∧ calls MExecute tr = calls MExecute tr'
     ∧ all_events tr = all_events tr')
  ∧ (∀ sched err c tr,
       Parallel_Execute (mkParallel hide inner) sched ctx = Some (err, c, tr) →
       ∃ tr', Parallel_Execute (mkParallel hide' inner) sched ctx
              = Some (err, c, tr')
              ∧ calls MExecute tr = calls MExecute tr'
              ∧ all_events tr = all_events tr').
Proof.
  intros Hin.
  assert (Forall2 eq inner inner) as Heq by (by apply list_eq_Forall2).
  assert (∀ t t' : Task, t = t' → same_methods t t') as Hsub
    by (intros t ? <-; apply same_methods_refl).
  split_and!.
  - apply (Serial_Execute_loop_sim same_methods); auto.
  - intros sched err c tr.
    apply (Parallel_call_sim same_methods); auto.
  - pose proof (Serial_Execute_loop_sim eq Hsub hide hide' inner inner Heq ctx)
      as H.
    unfold Serial_Execute. cbn [Serial_hideDetailDisplay Serial_inner].
    destruct (Serial_Execute_loop hide inner ctx) as [[err c] tr].
    destruct (Serial_Execute_loop hide' inner ctx) as [[err' c'] tr'].
    destruct H as (-> & -> & H%same_action_eq). split_and!; try done.
    + by rewrite <- (calls_without_announcements _ tr), H,
        calls_without_announcements.
    + by rewrite <- (all_events_without_announcements tr), H,
        all_events_without_announcements.
  - intros sched err c tr Hcall.
    destruct (Parallel_call_sim eq Hsub MExecute hide hide' inner inner sched
                ctx c err tr Heq Hcall) as (tr' & Hcall' & H%same_action_eq).
    exists tr'. split_and!; try done.
    + by rewrite <- (calls_without_announcements _ tr), H,
        calls_without_announcements.
    + by rewrite <- (all_events_without_announcements tr), H,
        all_events_without_announcements.
Qed.

Lemma display_governs_announcements_only_witness :
  ∃ tr',
    Parallel_Execute
      (mkParallel true (map (retype StepDisplayT) (Parallel_inner two_failing)))
      second_then_first NewContext
    = Some (Some (ErrOf "b"), NewContext, tr')
    ∧ Forall2 (same_action same_methods)
              (without_announcements trace_second_then_first)
              (without_announcements tr').
Proof.
  assert (Forall2 same_methods (Parallel_inner two_failing)
            (map (retype StepDisplayT) (Parallel_inner two_failing))) as H.
  { repeat constructor. }
  apply (proj1 (proj2 (display_governs_announcements_only false true _ _
                         NewContext H))).
  vm_compute. reflexivity.
Defined.

(** * Further properties *)

(** ** The stores of the context *)

Lemma latest_cons {A : Type} (sets : ContextOp → option A) (op : ContextOp)
    (ops : list ContextOp) :
  latest sets (op :: ops)
  = match latest sets ops with
    | Some a => Some a
    | None => sets op
    end.
Proof.
  unfold latest. cbn. destruct (sets op) as [a|]; [|by destruct (last _)].
  destruct (omap sets ops) as [|b l] eqn:E; [done|].
  rewrite last_cons. by destruct (last (b :: l)) eqn:E2.
Qed.

Lemma map_index_insert_ne {V : Type} (zero v : V) (m : gmap string V)
    (k k' : string) :
  k ≠ k' → map_index zero (<[k := v]> m) k' = map_index zero m k'.
Proof. intros Hne. unfold map_index. by rewrite lookup_insert_ne. Qed.

Lemma GetExecutor_apply_op (ctx : Context) (op : ContextOp) (host : string) :
  Context_GetExecutor (apply_op ctx op) host
  = match sets_executor host op with
    | Some e => (e, true)
    | None => Context_GetExecutor ctx host
    end.
Proof.
  destruct op as [h e|h o e|c m]; cbn; try done.
  unfold Context_GetExecutor. cbn. case_decide as Hh.
  - subst. apply map_index_insert.
  - by apply map_index_insert_ne.
Qed.

Lemma GetOutputs_apply_op (ctx : Context) (op : ContextOp) (host : string) :
  Context_GetOutputs (apply_op ctx op) host
  = match sets_outputs host op with
    | Some (stdout, stderr) => (stdout, stderr, true)
    | None => Context_GetOutputs ctx host
    end.
Proof.
  destruct op as [h e|h o e|c m]; cbn; try done.
  unfold Context_GetOutputs. cbn. case_decide as Hh.
  - subst. by rewrite !map_index_insert.
  - by rewrite !map_index_insert_ne.
Qed.

Lemma GetManifest_apply_op (ctx : Context) (op : ContextOp) (comp : string) :
  Context_GetManifest (apply_op ctx op) comp
  = match sets_manifest comp op with
    | Some m => (m, true)
    | None => Context_GetManifest ctx comp
    end.
Proof.
  destruct op as [h e|h o e|c m]; cbn; try done.
  unfold Context_GetManifest. cbn. case_decide as Hh.
  - subst. apply map_index_insert.
  - by apply map_index_insert_ne.
Qed.

Lemma GetExecutor_run_ops (ops : list ContextOp) (ctx : Context) (host : string) :
  Context_GetExecutor (run_ops ops ctx) host
  = match latest (sets_executor host) ops with
    | Some e => (e, true)
    | None => Context_GetExecutor ctx host
    end.
Proof.
  revert ctx. induction ops as [|op ops IH]; intros ctx; [done|].
  cbn [run_ops fold_left]. fold (run_ops ops (apply_op ctx op)).
  rewrite IH, latest_cons, GetExecutor_apply_op.
  by destruct (latest _ ops).
Qed.

Lemma Get_GetExecutor (ctx : Context) (host : string) :
  Context_Get ctx host
  = if (Context_GetExecutor ctx host).2
    then Returned (Context_GetExecutor ctx host).1
    else Panicked ("no init executor for " +:+ host).
Proof.
  unfold Context_Get, Context_GetExecutor.
  by destruct (map_index None (executors ctx) host) as [e [|]].
Qed.

(** X1: after any sequence of calls of the setters on a new context,
    [GetExecutor(host)] returns what the last [SetExecutor] for that host
    has set, with [true], and [Get(host)] returns it too; when no call
    has set an executor for the host, [GetExecutor] returns the zero
    value and [false], and [Get] panics.  Calls for other hosts and calls
    of the other setters do not matter. *)
Theorem executor_registry_history (ops : list ContextOp) (host : string) :
  match latest (sets_executor host) ops with
  | Some e =>
      Context_GetExecutor (run_ops ops NewContext) host = (e, true)
      ∧ Context_Get (run_ops ops NewContext) host = Returned e
  | None =>
      Context_GetExecutor (run_ops ops NewContext) host = (None, false)
      ∧ Context_Get (run_ops ops NewContext) host
        = Panicked ("no init executor for " +:+ host)
  end.
Proof.
  rewrite Get_GetExecutor, GetExecutor_run_ops.
  by destruct (latest _ ops).
Qed.

(** X2: after any sequence of calls of the setters on a new context,
    [GetOutputs(host)] returns the pair the last [SetOutputs] for that
    host was given, in the order it was given, with [true]; when there is
    no such call it returns two empty slices and [false]. *)
Theorem outputs_history (ops : list ContextOp) (host : string) :
  Context_GetOutputs (run_ops ops NewContext) host
  = match latest (sets_outputs host) ops with
    | Some (stdout, stderr) => (stdout, stderr, true)
    | None => ([], [], false)
    end.
Proof.
  assert (∀ ctx, Context_GetOutputs (run_ops ops ctx) host
                 = match latest (sets_outputs host) ops with
                   | Some (stdout, stderr) => (stdout, stderr, true)
                   | None => Context_GetOutputs ctx host
                   end) as H.
  { induction ops as [|op ops IH]; intros ctx; [done|].
    cbn [run_ops fold_left]. fold (run_ops ops (apply_op ctx op)).
    rewrite IH, latest_cons, GetOutputs_apply_op.
    by destruct (latest _ ops). }
  rewrite H. by destruct (latest _ ops).
Qed.

(** X3: after any sequence of calls of the setters on a new context,
    [GetManifest(comp)] returns what the last [SetManifest] for that
    component has set, with [true], and the zero value and [false] when
    there is no such call. *)
Theorem manifest_history (ops : list ContextOp) (comp : string) :
  Context_GetManifest (run_ops ops NewContext) comp
  = match latest (sets_manifest comp) ops with
    | Some m => (m, true)
    | None => (None, false)
    end.
Proof.
  assert (∀ ctx, Context_GetManifest (run_ops ops ctx) comp
                 = match latest (sets_manifest comp) ops with
                   | Some m => (m, true)
                   | None => Context_GetManifest ctx comp
                   end) as H.
  { induction ops as [|op ops IH]; intros ctx; [done|].
    cbn [run_ops fold_left]. fold (run_ops ops (apply_op ctx op)).
    rewrite IH, latest_cons, GetManifest_apply_op.
    by destruct (latest _ ops). }
  rewrite H. by destruct (latest _ ops).
Qed.

(** ** Serial: composition *)

Lemma Serial_Execute_loop_app (hide : bool) (a b : list Task) (ctx : Context) :
  Serial_Execute_loop hide (a ++ b) ctx
  = and_then (Serial_Execute_loop hide a ctx) (Serial_Execute_loop hide b).
Proof.
  revert ctx. induction a as [|t a IH]; intros ctx.
  - cbn. by destruct (Serial_Execute_loop hide b ctx) as [[? ?] ?].
  - rewrite <- app_comm_cons, !Serial_Execute_loop_cons.
    destruct (Execute t ctx) as [[[e|] ctx1] sub]; cbn zeta; [done|].
    rewrite IH. unfold and_then.
    destruct (Serial_Execute_loop hide a ctx1) as [[[e|] ctx2] tr]; [done|].
    destruct (Serial_Execute_loop hide b ctx2) as [[err' ctx3] tr'].
    by rewrite app_assoc.
Qed.

(** X4: [Execute] on a [Serial] of the children [a ++ b] is [Execute] on
    the [Serial] of [a] and then, when that returns nil, [Execute] on the
    [Serial] of [b] in the context it left. *)
Theorem Serial_Execute_app (hide : bool) (a b : list Task) (ctx : Context) :
  Serial_Execute (mkSerial hide (a ++ b)) ctx
  = and_then (Serial_Execute (mkSerial hide a) ctx)
             (Serial_Execute (mkSerial hide b)).
Proof. apply Serial_Execute_loop_app. Qed.

Lemma Serial_Rollback_loop_prefix (a b : list Task) (n : nat) (ctx : Context) :
  (n ≤ length a)%nat →
  Serial_Rollback_loop (a ++ b) n ctx = Serial_Rollback_loop a n ctx.
Proof.
  revert ctx. induction n as [|i IH]; intros ctx Hn; [done|].
  destruct (lookup_lt_is_Some_2 a i) as [t Ht]; [lia|].
  rewrite (Serial_Rollback_loop_S a i t ctx Ht).
  rewrite (Serial_Rollback_loop_S (a ++ b) i t ctx);
    [|by rewrite lookup_app_l by lia].
  destruct (Rollback t ctx) as [[[e|] ctx1] sub]; [done|].
  by rewrite IH by lia.
Qed.

Lemma Serial_Rollback_loop_app (a b : list Task) (k : nat) (ctx : Context) :
  (k ≤ length b)%nat →
  Serial_Rollback_loop (a ++ b) (length a + k) ctx
  = and_then (Serial_Rollback_loop b k ctx)
             (Serial_Rollback_loop a (length a)).
Proof.
  revert ctx. induction k as [|k IH]; intros ctx Hk.
  - rewrite Nat.add_0_r, Serial_Rollback_loop_prefix by lia. cbn.
    by destruct (Serial_Rollback_loop a (length a) ctx) as [[? ?] ?].
  - destruct (lookup_lt_is_Some_2 b k) as [t Ht]; [lia|].
    rewrite Nat.add_succ_r.
    rewrite (Serial_Rollback_loop_S (a ++ b) (length a + k) t ctx);
      [|by rewrite lookup_app_r, Nat.add_comm, Nat.add_sub by lia].
    rewrite (Serial_Rollback_loop_S b k t ctx Ht).
    destruct (Rollback t ctx) as [[[e|] ctx1] sub]; [done|].
    rewrite IH by lia. unfold and_then.
    destruct (Serial_Rollback_loop b k ctx1) as [[[e|] ctx2] tr]; [done|].
    by destruct (Serial_Rollback_loop a (length a) ctx2) as [[err' ctx3] tr'].
Qed.

(** X5: [Rollback] on a [Serial] of the children [a ++ b] is [Rollback]
    on the [Serial] of [b] and then, when that returns nil, [Rollback] on
    the [Serial] of [a] in the context it left; the flag plays no part. *)
Theorem Serial_Rollback_app (hide hide' hide'' : bool) (a b : list Task)
    (ctx : Context) :
  Serial_Rollback (mkSerial hide (a ++ b)) ctx
  = and_then (Serial_Rollback (mkSerial hide' b) ctx)
             (Serial_Rollback (mkSerial hide'' a)).
Proof.
  unfold Serial_Rollback. cbn [Serial_inner].
  rewrite length_app. by apply Serial_Rollback_loop_app.
Qed.

Lemma Serial_Execute_loop_framed (hide : bool) (inner : list Task) (ctx : Context) :
  without_announcements (Serial_Execute_loop hide inner ctx).2
  = flat_map framed (Serial_Execute_loop hide inner ctx).2.
Proof.
  revert ctx. induction inner as [|t rest IH]; intros ctx; [done|].
  rewrite Serial_Execute_loop_cons.
  assert (∀ l, flat_map framed (announcement "+ [ Serial ] - " hide t ++ l)
               = flat_map framed l) as Hann.
  { intros l. unfold announcement. by repeat case_match. }
  destruct (Execute t ctx) as [[[e|] ctx1] sub]; cbn zeta; cbn [snd].
  - by rewrite without_announcements_app, without_announcements_announcement,
      Hann.
  - specialize (IH ctx1).
    destruct (Serial_Execute_loop hide rest ctx1) as [[err' ctx2] tr].
    cbn [snd] in *.
    rewrite <- app_assoc, Hann, !without_announcements_app,
      without_announcements_announcement, IH. reflexivity.
Qed.

(** X6: besides the announcements, the actions of [Serial.Execute] are,
    for each call of [Execute] in order, a [Begin] event for the child,
    the call, and a [Finish] event with the error of the call. *)
Theorem Serial_Execute_framed (s : Serial) (ctx : Context) :
  without_announcements (Serial_Execute s ctx).2
  = flat_map framed (Serial_Execute s ctx).2.
Proof. apply Serial_Execute_loop_framed. Qed.

Lemma calls_dispatch (t : Task) (sub : list (Action Task)) (err : error) :
  calls MExecute [TaskBegin t; Call MExecute t sub err; TaskFinish t err]
  = [(t, err)].
Proof. reflexivity. Qed.

Lemma Serial_Execute_loop_announcements (hide : bool) (inner : list Task)
    (ctx : Context) :
  announcements (Serial_Execute_loop hide inner ctx).2
  = flat_map (announced "+ [ Serial ] - " hide)
             (map fst (calls MExecute (Serial_Execute_loop hide inner ctx).2)).
Proof.
  revert ctx. induction inner as [|t rest IH]; intros ctx; [done|].
  rewrite Serial_Execute_loop_cons.
  destruct (Execute t ctx) as [[[e|] ctx1] sub]; cbn zeta; cbn [snd].
  - rewrite announcements_app, calls_app, calls_announcement, calls_dispatch.
    cbn. by rewrite !app_nil_r.
  - specialize (IH ctx1).
    destruct (Serial_Execute_loop hide rest ctx1) as [[err' ctx2] tr].
    cbn [snd] in *.
    rewrite !announcements_app, !calls_app, calls_announcement, calls_dispatch,
      IH.
    cbn. by rewrite app_nil_r.
Qed.

(** X7: [Serial.Execute] prints one line for each child it executes that
    is not a display task, in order, and none when the flag is set. *)
Theorem Serial_Execute_announcements (s : Serial) (ctx : Context) :
  announcements (Serial_Execute s ctx).2
  = (if Serial_hideDetailDisplay s then []
     else map (λ t, "+ [ Serial ] - " +:+ Describe t)
              (List.filter (λ t, negb (isDisplayTask t))
                 (map fst (calls MExecute (Serial_Execute s ctx).2)))).
Proof.
  unfold Serial_Execute. rewrite Serial_Execute_loop_announcements.
  generalize (map fst (calls MExecute
    (Serial_Execute_loop (Serial_hideDetailDisplay s) (Serial_inner s) ctx).2)).
  intros l. induction l as [|t l IH]; cbn.
  - by destruct (Serial_hideDetailDisplay s).
  - rewrite IH. unfold announced, announcement.
    by destruct (isDisplayTask t), (Serial_hideDetailDisplay s).
Qed.

Lemma Serial_Execute_loop_keeps (P : Context → Prop) (hide : bool)
    (inner : list Task) (ctx : Context) :
  Forall (keeps MExecute P) inner → P ctx →
  P (Serial_Execute_loop hide inner ctx).1.2.
Proof.
  intros Hin. revert ctx. induction Hin as [|t rest Ht _ IH]; intros ctx HP.
  - done.
  - rewrite Serial_Execute_loop_cons. specialize (Ht ctx HP). cbn in Ht.
    destruct (Execute t ctx) as [[[e|] ctx1] sub]; cbn zeta; [done|].
    specialize (IH ctx1 Ht).
    by destruct (Serial_Execute_loop hide rest ctx1) as [[err' ctx2] tr].
Qed.

Lemma Serial_Rollback_loop_keeps (P : Context → Prop) (inner : list Task)
    (n : nat) (ctx : Context) :
  Forall (keeps MRollback P) inner → P ctx →
  P (Serial_Rollback_loop inner n ctx).1.2.
Proof.
  intros Hin. revert ctx. induction n as [|i IH]; intros ctx HP; [done|].
  destruct (inner !! i) as [t|] eqn:Ht.
  - rewrite (Serial_Rollback_loop_S _ _ _ _ Ht).
    rewrite Forall_lookup in Hin. specialize (Hin i t Ht ctx HP). cbn in Hin.
    destruct (Rollback t ctx) as [[[e|] ctx1] sub]; [done|].
    specialize (IH ctx1 Hin).
    by destruct (Serial_Rollback_loop inner i ctx1) as [[err' ctx2] tr].
  - cbn [Serial_Rollback_loop]. by rewrite Ht.
Qed.

(** X8: a property of the context that the [Execute] (the [Rollback])
    of every child keeps is kept by [Execute] (by [Rollback]) of the
    [Serial]: the composite writes to the context through its children
    only. *)
Theorem Serial_keeps (P : Context → Prop) (s : Serial) (ctx : Context) :
  P ctx →
  (Forall (keeps MExecute P) (Serial_inner s) → P (Serial_Execute s ctx).1.2)
  ∧ (Forall (keeps MRollback P) (Serial_inner s) → P (Serial_Rollback s ctx).1.2).
Proof.
  intros HP. split; intros Hin.
  - exact (Serial_Execute_loop_keeps P _ _ ctx Hin HP).
  - exact (Serial_Rollback_loop_keeps P _ _ ctx Hin HP).
Qed.

Lemma Serial_keeps_witness :
  (Serial_Execute (mkSerial false [ok_task "a"; failing_task "b"])
                  NewContext).1.2
  = NewContext.
Proof.
  apply (proj1 (Serial_keeps (λ ctx, ctx = NewContext)
                  (mkSerial false [ok_task "a"; failing_task "b"])
                  NewContext eq_refl)).
  repeat constructor; intros ctx ->; reflexivity.
Defined.

Lemma Serial_Execute_loop_flag (hide hide' : bool) (inner : list Task)
    (ctx : Context) :
  (Serial_Execute_loop hide inner ctx).1 = (Serial_Execute_loop hide' inner ctx).1.
Proof.
  assert (∀ t t' : Task, t = t' → same_methods t t') as Hsub
    by (intros t ? <-; apply same_methods_refl).
  pose proof (Serial_Execute_loop_sim eq Hsub hide hide' inner inner
                (proj1 (list_eq_Forall2 _ _) eq_refl) ctx) as H.
  destruct (Serial_Execute_loop hide inner ctx) as [[err c] tr].
  destruct (Serial_Execute_loop hide' inner ctx) as [[err' c'] tr'].
  by destruct H as (-> & -> & _).
Qed.

Lemma and_then_outcome (r r' : error * Context * list (Action Task))
    (k k' : Run Task error) :
  r.1 = r'.1 → (∀ ctx, (k ctx).1 = (k' ctx).1) →
  (and_then r k).1 = (and_then r' k').1.
Proof.
  destruct r as [[[e|] c] tr], r' as [[[e'|] c'] tr']; cbn;
    intros [=] Hk; subst; try done.
  specialize (Hk c').
  destruct (k c') as [[? ?] ?], (k' c') as [[? ?] ?]. cbn in *. by simplify_eq.
Qed.

Lemma Serial_Execute_loop_two (hide : bool) (s1 s2 : Serial) (ctx : Context) :
  (Serial_Execute_loop hide [Serial_Task s1; Serial_Task s2] ctx).1
  = (and_then (Serial_Execute s1 ctx) (Serial_Execute s2)).1.
Proof.
  rewrite Serial_Execute_loop_cons. cbn [Serial_Task Execute].
  unfold and_then.
  destruct (Serial_Execute s1 ctx) as [[[e|] c1] tr1]; cbn zeta; [done|].
  rewrite Serial_Execute_loop_cons. cbn [Serial_Task Execute].
  by destruct (Serial_Execute s2 c1) as [[[e|] c2] tr2].
Qed.

Lemma Serial_Rollback_two (hide : bool) (s1 s2 : Serial) (ctx : Context) :
  (Serial_Rollback (mkSerial hide [Serial_Task s1; Serial_Task s2]) ctx).1
  = (and_then (Serial_Rollback s2 ctx) (Serial_Rollback s1)).1.
Proof.
  unfold Serial_Rollback at 1. cbn [Serial_inner length].
  rewrite (Serial_Rollback_loop_S _ 1 (Serial_Task s2)) by done.
  cbn [Serial_Task Rollback]. unfold and_then.
  destruct (Serial_Rollback s2 ctx) as [[[e|] c1] tr1]; [done|].
  rewrite (Serial_Rollback_loop_S _ 0 (Serial_Task s1)) by done.
  cbn [Serial_Task Rollback].
  by destruct (Serial_Rollback s1 c1) as [[[e|] c2] tr2].
Qed.

(** X9: grouping the children of a [Serial] into two nested [Serial]s,
    with any flags, changes neither the error returned nor the context
    left, by [Execute] and by [Rollback]. *)
Theorem Serial_nesting (hide hide1 hide2 : bool) (a b : list Task)
    (ctx : Context) :
  (Serial_Execute
     (mkSerial hide [Serial_Task (mkSerial hide1 a);
                     Serial_Task (mkSerial hide2 b)]) ctx).1
  = (Serial_Execute (mkSerial hide (a ++ b)) ctx).1
  ∧ (Serial_Rollback
       (mkSerial hide [Serial_Task (mkSerial hide1 a);
                       Serial_Task (mkSerial hide2 b)]) ctx).1
    = (Serial_Rollback (mkSerial hide (a ++ b)) ctx).1.
Proof.
  split.
  - unfold Serial_Execute. cbn [Serial_hideDetailDisplay Serial_inner].
    rewrite Serial_Execute_loop_two, Serial_Execute_loop_app.
    apply and_then_outcome; intros; apply Serial_Execute_loop_flag.
  - rewrite Serial_Rollback_two.
    unfold Serial_Rollback at 3. cbn [Serial_inner].
    rewrite length_app, Serial_Rollback_loop_app by done. reflexivity.
Qed.

(** X10: when [Execute] on a [Serial] returned nil and a [Rollback] on it
    returns nil, the children were rolled back in the reverse of the
    order in which they were executed. *)
Theorem Serial_Rollback_mirrors_Execute (s : Serial) (ctx ctx0 : Context) :
  (Serial_Execute s ctx).1.1 = None →
  (Serial_Rollback s ctx0).1.1 = None →
  map fst (calls MRollback (Serial_Rollback s ctx0).2)
  = reverse (map fst (calls MExecute (Serial_Execute s ctx).2)).
Proof.
  unfold Serial_Execute, Serial_Rollback.
  pose proof (Serial_Execute_loop_calls (Serial_hideDetailDisplay s)
                (Serial_inner s) ctx) as HE.
  pose proof (Serial_Rollback_loop_calls (Serial_inner s)
                (length (Serial_inner s)) ctx0 (le_n _)) as HR.
  destruct (Serial_Execute_loop _ _ ctx) as [[err c] tr].
  destruct (Serial_Rollback_loop _ _ ctx0) as [[err' c'] tr'].
  cbn [fst snd]. intros -> ->. rewrite HE, HR, firstn_all.
  rewrite !map_map. cbn [succeeded fst]. by rewrite !map_id.
Qed.

Lemma Serial_Rollback_mirrors_Execute_witness :
  map fst (calls MRollback
             (Serial_Rollback (mkSerial false [ok_task "a"; ok_task "b"])
                              NewContext).2)
  = reverse (map fst (calls MExecute
                        (Serial_Execute (mkSerial false [ok_task "a"; ok_task "b"])
                                        NewContext).2)).
Proof. apply Serial_Rollback_mirrors_Execute; reflexivity. Defined.

(** ** Parallel: more of what every schedule gives *)



Lemma Parallel_step_firstError (m : Method) (pt : Parallel) (c : Choice)
    (st st' : PState) (e : Err) :
  Parallel_step m pt c st = Some st' →
  firstError (shared st) = Some e → firstError (shared st') = Some e.
Proof.
  intros Hstep He. destruct c as [|i]; cbn in Hstep.
  - repeat case_match; by simplify_eq.
  - destruct (goroutines st !! i) as [[t pc]|]; [|done].
    destruct m, pc; cbn in Hstep; try done;
      unfold sh_call, sh_record in Hstep; rewrite ?He in Hstep;
      repeat case_match; by simplify_eq.
Qed.

Lemma Parallel_run_firstError (m : Method) (pt : Parallel) (sched : list Choice)
    (st st' : PState) (e : Err) :
  Parallel_run m pt sched st = Some st' →
  firstError (shared st) = Some e → firstError (shared st') = Some e.
Proof.
  revert st. induction sched as [|c sched IH]; intros st Hrun He; cbn in Hrun.
  - by simplify_eq.
  - destruct (Parallel_step m pt c st) as [st1|] eqn:Hstep; [|done].
    eauto using Parallel_step_firstError.
Qed.

Lemma Parallel_run_app (m : Method) (pt : Parallel) (s1 s2 : list Choice)
    (st : PState) :
  Parallel_run m pt (s1 ++ s2) st
  = Parallel_run m pt s1 st ≫= Parallel_run m pt s2.
Proof.
  revert st. induction s1 as [|c s1 IH]; intros st; [done|]. cbn.
  by destruct (Parallel_step m pt c st).
Qed.

(** X12: once [firstError] holds an error it keeps it whatever the
    goroutines do next, and that error is the one the call returns:
    errors recorded later are dropped. *)
Theorem Parallel_first_error_is_kept (m : Method) (pt : Parallel)
    (ctx : Context) (sched1 sched2 : list Choice) (st1 st2 : PState)
    (e : Err) (err : error) :
  Parallel_run m pt sched1 (Parallel_init ctx) = Some st1 →
  firstError (shared st1) = Some e →
  Parallel_run m pt sched2 st1 = Some st2 →
  firstError (shared st2) = Some e
  ∧ (returned st2 = Some err → err = Some e).
Proof.
  intros Hrun1 He Hrun2.
  pose proof (Parallel_run_firstError _ _ _ _ _ _ Hrun2 He) as He2.
  split; [done|]. intros Hr.
  assert (Inv m pt st2) as HI.
  { eapply Parallel_run_Inv; [|exact Hrun2].
    eapply Parallel_run_Inv; [apply Parallel_init_Inv | exact Hrun1]. }
  destruct (inv_returned _ _ _ HI err Hr) as (-> & _). done.
Qed.

Lemma Parallel_first_error_is_kept_witness :
  firstError (shared state_at_return) = Some (ErrOf "b")
  ∧ (returned state_at_return = Some (Some (ErrOf "b")) →
     Some (ErrOf "b") = Some (ErrOf "b")).
Proof.
  apply (Parallel_first_error_is_kept MExecute two_failing NewContext
           second_has_recorded after_second_has_recorded
           state_second_has_recorded state_at_return).
  - vm_compute. reflexivity.
  - reflexivity.
  - vm_compute. reflexivity.
Defined.

Lemma Parallel_run_steps_left (m : Method) (pt : Parallel) (sched : list Choice)
    (st st' : PState) :
  Inv m pt st → Parallel_run m pt sched st = Some st' →
  (length sched + steps_left pt st' ≤ steps_left pt st)%nat.
Proof.
  revert st. induction sched as [|c sched IH]; intros st HI Hrun; cbn in Hrun.
  - simplify_eq. cbn. lia.
  - destruct (Parallel_step m pt c st) as [st1|] eqn:Hstep; [|done].
    pose proof (Parallel_step_decreases _ _ _ _ _ HI Hstep).
    pose proof (Parallel_step_Inv _ _ _ _ _ HI Hstep) as HI1.
    specialize (IH st1 HI1 Hrun). cbn. lia.
Qed.

(** X13: a call of [Parallel.Execute] or [Parallel.Rollback] on [N]
    children takes at most [7 * N + 1] steps, whatever the schedule;
    while it has not returned some goroutine can step, and every run can
    be continued until the call returns. *)
Theorem Parallel_terminates (m : Method) (pt : Parallel) (ctx : Context)
    (sched : list Choice) (st : PState) :
  Parallel_run m pt sched (Parallel_init ctx) = Some st →
  (length sched ≤ 7 * length (Parallel_inner pt) + 1)%nat
  ∧ (returned st = None → ∃ c st', Parallel_step m pt c st = Some st')
  ∧ (∃ sched' st', Parallel_run m pt (sched ++ sched') (Parallel_init ctx)
                   = Some st'
                   ∧ is_Some (returned st')).
Proof.
  intros Hrun.
  pose proof (Parallel_init_Inv m pt ctx) as HI0.
  pose proof (Parallel_run_Inv _ _ _ _ _ HI0 Hrun) as HI.
  split_and!.
  - pose proof (Parallel_run_steps_left _ _ _ _ _ HI0 Hrun) as H.
    unfold steps_left at 2 in H. cbn in H. lia.
  - by apply Parallel_progress.
  - destruct (Parallel_completes m pt _ st (le_n _) HI)
      as (sched' & st' & Hrun' & Hr).
    exists sched', st'. split; [|done].
    by rewrite Parallel_run_app, Hrun.
Qed.

Lemma Parallel_terminates_witness :
  (length second_then_first ≤ 7 * length (Parallel_inner two_failing) + 1)%nat
  ∧ (returned state_at_return = None →
     ∃ c st', Parallel_step MExecute two_failing c state_at_return = Some st')
  ∧ (∃ sched' st',
       Parallel_run MExecute two_failing (second_then_first ++ sched')
                    (Parallel_init NewContext) = Some st'
       ∧ is_Some (returned st')).
Proof.
  apply (Parallel_terminates MExecute two_failing NewContext second_then_first
           state_at_return).
  vm_compute. reflexivity.
Defined.

(** X14: when the failing children of a [Parallel] all return the same
    error, as when one child only fails, [Parallel.Execute] returns that
    error under every schedule. *)
Theorem Parallel_Execute_single_error (pt : Parallel) (sched : list Choice)
    (ctx ctx' : Context) (err : error) (tr : list (Action Task)) (e : Err) :
  Parallel_Execute pt sched ctx = Some (err, ctx', tr) →
  Exists (λ r : Task * error, r.2 = Some e) (calls MExecute tr) →
  Forall (λ r : Task * error, r.2 = None ∨ r.2 = Some e) (calls MExecute tr) →
  err = Some e.
Proof.
  intros H Hex Hall.
  apply Parallel_call_Some in H as (st & _ & HI & Hr & _ & <-).
  destruct (Parallel_returned _ _ _ _ HI Hr) as (_ & _ & Hnil & Hsome).
  destruct err as [e'|].
  - specialize (Hsome e' eq_refl).
    apply Exists_exists in Hsome as (r & Hin & Hr').
    rewrite Forall_forall in Hall. destruct (Hall r Hin); congruence.
  - destruct Hnil as [Hnil _]. specialize (Hnil eq_refl).
    apply Exists_exists in Hex as (r & Hin & Hr').
    rewrite Forall_forall in Hnil. specialize (Hnil r Hin). congruence.
Qed.

Lemma Parallel_Execute_single_error_witness :
  Some (ErrOf "b") = Some (ErrOf "b").
Proof.
  apply (Parallel_Execute_single_error one_failing first_then_second
           NewContext NewContext (Some (ErrOf "b")) trace_one_failing
           (ErrOf "b")).
  - vm_compute. reflexivity.
  - change (calls MExecute trace_one_failing)
      with [(ok_task "a", None : error); (failing_task "b", Some (ErrOf "b"))].
    right. left. reflexivity.
  - change (calls MExecute trace_one_failing)
      with [(ok_task "a", None : error); (failing_task "b", Some (ErrOf "b"))].
    constructor; [left; reflexivity|].
    constructor; [right; reflexivity|]. constructor.
Defined.






Section Observed.
Variable X : Type.
Variable obs : Action Task → option X.
Variable expect : Task * Pc → list X.
Variable pt : Parallel.
Hypothesis expect_entry : ∀ t, expect (t, PcAnnounce) = [].
Hypothesis expect_step : ∀ t pc pc' sh sh',
  Parallel_Execute_goroutine (Parallel_hideDetailDisplay pt) t pc sh
  = Some (pc', sh') →
  ∃ new, omap obs (sh_trace sh') = omap obs (sh_trace sh) ++ new
         ∧ expect (t, pc') = expect (t, pc) ++ new.

Lemma observed_step (c : Choice) (st st' : PState) :
  Parallel_step MExecute pt c st = Some st' →
  omap obs (sh_trace (shared st)) ≡ₚ flat_map expect (goroutines st) →
  omap obs (sh_trace (shared st')) ≡ₚ flat_map expect (goroutines st').
Proof.
  intros Hstep Hobs. destruct c as [|i]; cbn in Hstep.
  - destruct (returned st); [done|].
    destruct (Parallel_inner pt !! next st) as [t|].
    + simplify_eq. cbn. rewrite flat_map_app. cbn.
      by rewrite expect_entry, !app_nil_r.
    + destruct (wg (shared st)); by simplify_eq.
  - destruct (goroutines st !! i) as [[t pc]|] eqn:Hi; [|done].
    destruct (Parallel_Execute_goroutine (Parallel_hideDetailDisplay pt) t pc
                (shared st)) as [[pc' sh']|] eqn:Hgo; [|done].
    simplify_eq. cbn.
    destruct (pool_split _ _ _ (t, pc') Hi) as (l1 & l2 & Hl & ->).
    destruct (expect_step _ _ _ _ _ Hgo) as (new & -> & Hnew).
    rewrite Hobs, Hl, !flat_map_app. cbn. rewrite Hnew.
    apply Permutation_app_middle.
Qed.

Lemma observed_run (sched : list Choice) (st st' : PState) :
  Parallel_run MExecute pt sched st = Some st' →
  omap obs (sh_trace (shared st)) ≡ₚ flat_map expect (goroutines st) →
  omap obs (sh_trace (shared st')) ≡ₚ flat_map expect (goroutines st').
Proof.
  revert st. induction sched as [|c sched IH]; intros st Hrun Hobs; cbn in Hrun.
  - by simplify_eq.
  - destruct (Parallel_step MExecute pt c st) as [st1|] eqn:Hstep; [|done].
    eauto using observed_step.
Qed.
End Observed.

Lemma events_of_step (hide : bool) (t : Task) (pc pc' : Pc) (sh sh' : Shared) :
  Parallel_Execute_goroutine hide t pc sh = Some (pc', sh') →
  ∃ new, omap event_of (sh_trace sh') = omap event_of (sh_trace sh) ++ new
         ∧ events_of (t, pc') = events_of (t, pc) ++ new.
Proof.
  intros Hstep.
  destruct pc; cbn in Hstep; unfold sh_call, sh_record, method in Hstep;
    repeat case_match; simplify_eq; cbn; rewrite ?omap_app; cbn;
    eexists; (split; [try done; by rewrite ?app_nil_r | done]).
Qed.

Lemma lines_of_step (hide : bool) (t : Task) (pc pc' : Pc) (sh sh' : Shared) :
  Parallel_Execute_goroutine hide t pc sh = Some (pc', sh') →
  ∃ new, omap line_of (sh_trace sh') = omap line_of (sh_trace sh) ++ new
         ∧ lines_of hide (t, pc') = lines_of hide (t, pc) ++ new.
Proof.
  intros Hstep.
  destruct pc; cbn in Hstep; unfold sh_call, sh_record, method in Hstep.
  1: { simplify_eq. exists (announced "+ [Parallel] - " hide t). split; [|done].
       unfold announced, announcement.
       destruct (negb (isDisplayTask t)), (negb hide); cbn;
         rewrite ?omap_app, ?app_nil_r; done. }
  all: repeat case_match; simplify_eq; cbn; rewrite ?omap_app; cbn;
    exists []; by rewrite !app_nil_r.
Qed.

Lemma exited_events (l : list (Task * Pc)) :
  Forall (λ g, ∃ err, g.2 = PcExit err) l →
  flat_map events_of l = flat_map bracket (omap result_of l).
Proof.
  induction 1 as [|[t pc] l [err Hpc] _ IH]; [done|].
  cbn in Hpc. subst pc. cbn. by rewrite IH.
Qed.

Lemma exited_lines (hide : bool) (l : list (Task * Pc)) :
  Forall (λ g, ∃ err, g.2 = PcExit err) l →
  flat_map (lines_of hide) l
  = flat_map (announced "+ [Parallel] - " hide) (map fst l).
Proof.
  induction 1 as [|[t pc] l [err Hpc] _ IH]; [done|].
  cbn in Hpc. subst pc. cbn. by rewrite IH.
Qed.

(** X16: under every schedule, when [Parallel.Execute] returns it has
    published one [Begin] and one [Finish] event for each call of
    [Execute], the [Finish] with the error of the call, and printed one
    line for each child that is not a display task, none when the flag is
    set; the order among children is that of the schedule. *)
Theorem Parallel_Execute_events (pt : Parallel) (sched : list Choice)
    (ctx ctx' : Context) (err : error) (tr : list (Action Task)) :
  Parallel_Execute pt sched ctx = Some (err, ctx', tr) →
  events tr ≡ₚ flat_map bracket (calls MExecute tr)
  ∧ announcements tr
    ≡ₚ flat_map (announced "+ [Parallel] - " (Parallel_hideDetailDisplay pt))
                (Parallel_inner pt).
Proof.
  intros H.
  apply Parallel_call_Some in H as (st & Hrun & HI & Hr & _ & <-).
  destruct (Parallel_returned _ _ _ _ HI Hr) as ([Htasks Hex] & _).
  split.
  - unfold events.
    rewrite (observed_run _ event_of events_of pt (λ _, eq_refl)
               (events_of_step _) sched _ st Hrun) by done.
    rewrite (exited_events _ Hex).
    apply Permutation_flat_map. symmetry. apply (inv_calls _ _ _ HI).
  - unfold announcements.
    rewrite (observed_run _ line_of (lines_of (Parallel_hideDetailDisplay pt)) pt
               (λ _, eq_refl) (lines_of_step _) sched _ st Hrun) by done.
    by rewrite (exited_lines _ _ Hex), Htasks.
Qed.

Lemma Parallel_Execute_events_witness :
  events trace_second_then_first
  ≡ₚ flat_map bracket (calls MExecute trace_second_then_first)
  ∧ announcements trace_second_then_first
    ≡ₚ flat_map (announced "+ [Parallel] - "
                   (Parallel_hideDetailDisplay two_failing))
                (Parallel_inner two_failing).
Proof.
  apply (Parallel_Execute_events two_failing second_then_first NewContext
           NewContext (Some (ErrOf "b")) trace_second_then_first).
  vm_compute. reflexivity.
Defined.

(** ** Descriptions *)

Lemma Join_cons (s : string) (ss : list string) :
  ss ≠ [] → Join (s :: ss) = s +:+ newline +:+ Join ss.
Proof. destruct ss; [done|]. reflexivity. Qed.

Lemma append_assoc (a b c : string) : (a +:+ b) +:+ c = a +:+ (b +:+ c).
Proof.
  induction a as [|x a IH]; [done|].
  change (String x ((a +:+ b) +:+ c) = String x (a +:+ (b +:+ c))).
  by rewrite IH.
Qed.

Lemma Join_app (a b : list string) :
  a ≠ [] → b ≠ [] → Join (a ++ b) = Join a +:+ newline +:+ Join b.
Proof.
  intros Ha Hb. induction a as [|s a IH]; [done|].
  destruct a as [|s' a].
  - cbn [app]. by rewrite Join_cons.
  - rewrite <- app_comm_cons, Join_cons by done.
    rewrite IH by done. rewrite (Join_cons s (s' :: a)) by done.
    by rewrite !append_assoc.
Qed.

(** X17: the description of a [Serial] of [a ++ b], both non-empty, is
    the description of [a], a newline and the description of [b]; it is
    also the description of the [Serial] of the two nested [Serial]s, and
    that of the [Parallel] of the same children. *)
Theorem Serial_String_app (hide hide1 hide2 : bool) (a b : list Task) :
  a ≠ [] → b ≠ [] →
  Serial_String (mkSerial hide (a ++ b))
  = Serial_String (mkSerial hide1 a) +:+ newline
    +:+ Serial_String (mkSerial hide2 b)
  ∧ Serial_String (mkSerial hide [Serial_Task (mkSerial hide1 a);
                                  Serial_Task (mkSerial hide2 b)])
    = Serial_String (mkSerial hide (a ++ b))
  ∧ Parallel_String (mkParallel hide (a ++ b))
    = Serial_String (mkSerial hide (a ++ b)).
Proof.
  intros Ha Hb. unfold Serial_String, Parallel_String. cbn.
  rewrite map_app, Join_app; [done | by destruct a | by destruct b].
Qed.

Lemma Serial_String_app_witness :
  Serial_String (mkSerial false ([ok_task "a"] ++ [ok_task "b"]))
  = "a" +:+ newline +:+ "b".
Proof.
  apply (Serial_String_app false false false [ok_task "a"] [ok_task "b"]);
    discriminate.
Defined.
